(** * Centroid summary of go-tdigest (summary.go)

    A shallow embedding of [summary.go]: the paired slices [means] and
    [counts], sorted insertion, rank and cumulative-weight queries, the
    local re-sort of [setAt] and the destructive [shuffle].

    - [float64] is IEEE 754 binary64, taken from the Standard Library's
      executable specification [SpecFloat] at precision 53 and maximal
      exponent 1024 (there is one NaN, payloads are not modelled).  The
      statements quantify over every [spec_float], the binary64 values
      among them; conversions and arithmetic only produce binary64
      values.
    - [uint64] is [Z] with the wrap-around modulo [2^64] written out.
    - [int] is [Z]; a slice is a [list], read and written by index with
      stdpp's lookup and insert.  Go panics on an index out of range:
      every operation that indexes returns an [option], [None] being the
      panic. *)

From Stdlib Require Import ZArith Lia Bool.
From Stdlib Require Import Floats.SpecFloat.
From stdpp Require Import base list.
From Equations Require Import Equations.

Local Open Scope Z_scope.

(** ** float64 *)

Module Float64.

Definition prec : Z := 53.
Definition emax : Z := 1024.

Definition float64 : Type := spec_float.

(** [math.NaN()] and [math.IsNaN] *)
Definition NaN : float64 := S754_nan.

Definition IsNaN (x : float64) : bool :=
  match x with
  | S754_nan => true
  | _ => false
  end.

(** The comparison operators of Go on float64: all of them are false as
    soon as one operand is NaN. *)
Definition ltb (x y : float64) : bool := SFltb x y.
Definition leb (x y : float64) : bool := SFleb x y.
Definition gtb (x y : float64) : bool := SFltb y x.
Definition geb (x y : float64) : bool := SFleb y x.

(** [x + y] and [x - y], rounded to nearest, ties to even *)
Definition add (x y : float64) : float64 := SFadd prec emax x y.
Definition sub (x y : float64) : float64 := SFsub prec emax x y.

(** The conversion [float64(n)] of an integer, rounded to nearest even *)
Definition of_Z (n : Z) : float64 := binary_normalize prec emax n 0 false.

Definition zero : float64 := S754_zero false.

End Float64.

Export Float64.

(** ** uint64 *)

Definition uint64_mod : Z := 2 ^ 64.

Definition wrap64 (z : Z) : Z := z mod uint64_mod.

(** [a + b] on uint64 *)
Definition add64 (a b : Z) : Z := wrap64 (a + b).

(** ** int *)

(** [int] is 64 bits wide.  The functions below compute on [Z] without
    wrapping; [in_int] is the range in which that agrees with Go, and the
    statements that depend on it take it as a hypothesis. *)
Definition MinInt64 : Z := - 2 ^ 63.
Definition MaxInt64 : Z := 2 ^ 63 - 1.

Definition in_int (z : Z) : Prop := MinInt64 <= z <= MaxInt64.

(** ** Slices *)

(** [s[i]] for an [int] index: [None] is the index-out-of-range panic. *)
Definition at_index {A} (l : list A) (i : Z) : option A :=
  if i <? 0 then None else l !! Z.to_nat i.

(** [s[i] = v] *)
Definition set_index {A} (l : list A) (i : Z) (v : A) : option (list A) :=
  match at_index l i with
  | Some _ => Some (<[Z.to_nat i := v]> l)
  | None => None
  end.

(** [len(s)] as an [int] *)
Definition len {A} (l : list A) : Z := Z.of_nat (length l).

(** [copy(s[d:], s[f:])] inside one slice, for [0 <= f, d <= len(s)]: the
    number of elements copied is the length of the shorter of the two
    windows, and the source window is read as it was before the call
    (Go's [copy] is a memmove). *)
Definition copy_within {A} (l : list A) (d f : nat) : list A :=
  let n := Nat.min (length l - d) (length l - f) in
  take d l ++ take n (drop f l) ++ drop (d + n) l.

(** ** The summary *)

Record summary : Type := mkSummary {
  means : list float64;
  counts : list Z
}.

(** [make([]T, 0, initialCapacity)]: the capacity is not part of the
    model, the slices are empty whatever it is.  [make] panics on a
    negative capacity; [newSummary] is taken at [initialCapacity >= 0]. *)
Definition newSummary (initialCapacity : Z) : summary :=
  mkSummary [] [].

Definition Reset (s : summary) : summary :=
  mkSummary (take 0 (means s)) (take 0 (counts s)).

Definition GetDataCopy (s : summary) : list float64 * list Z :=
  (means s, counts s).

Definition Len (s : summary) : Z := len (means s).

Definition Clone (s : summary) : summary :=
  mkSummary ([] ++ means s) ([] ++ counts s).

(** ** sort.Search of the Go standard library

    [[
    i, j := 0, n
    for i < j {
        h := int(uint(i+j) >> 1)
        if !f(h) { i = h + 1 } else { j = h }
    }
    return i
    ]] *)
Equations? Search_loop (f : Z -> bool) (i j : Z) : Z by wf (Z.to_nat (j - i)) lt :=
  Search_loop f i j with Z_lt_dec i j => {
    | left _ with f (Z.shiftr (i + j) 1) => {
        | false => Search_loop f (Z.shiftr (i + j) 1 + 1) j
        | true => Search_loop f i (Z.shiftr (i + j) 1) };
    | right _ => i }.
Proof.
  all: rewrite Z.shiftr_div_pow2 by lia; change (2 ^ 1) with 2.
  all: pose proof (Z.div_mod (i + j) 2 ltac:(lia));
       pose proof (Z.mod_pos_bound (i + j) 2 ltac:(lia)); lia.
Qed.

Definition Search (n : Z) (f : Z -> bool) : Z := Search_loop f 0 n.

(** ** Sorted insertion *)

(** The linear scan of [findInsertionIndex]: the first position, counted
    from [i], whose mean is greater than [x]. *)
Fixpoint scan_gt (l : list float64) (x : float64) (i : Z) : Z :=
  match l with
  | [] => i
  | mean :: l' => if gtb mean x then i else scan_gt l' x (i + 1)
  end.

(** The closure handed to [sort.Search]; the search only probes indices
    in [0, n), see [Search_ext]. *)
Definition probe (cmp : float64 -> float64 -> bool) (l : list float64)
    (x : float64) (i : Z) : bool :=
  match at_index l i with
  | Some mean => cmp mean x
  | None => false
  end.

Definition findInsertionIndex (s : summary) (x : float64) : Z :=
  if len (means s) <? 250 then scan_gt (means s) x 0
  else Search (len (means s)) (probe gtb (means s) x).

Inductive error : Type :=
| KeyIsNaN      (* "key must not be NaN" *)
| CountIsZero.  (* "Count must be >0" *)

(** [Add] returns its error (if any) next to the summary as the call
    leaves it.  The index found lies in [0, len(s.means)] (see
    [findInsertionIndex_range]), so on a summary whose two slices have
    the same length the slice expressions and the stores are in range. *)
Definition Add (s : summary) (key : float64) (value : Z)
    : option error * summary :=
  if IsNaN key then (Some KeyIsNaN, s)
  else if value =? 0 then (Some CountIsZero, s)
  else
    let idx := Z.to_nat (findInsertionIndex s key) in
    let means1 := means s ++ [NaN] in
    let counts1 := counts s ++ [0] in
    let means2 := copy_within means1 (idx + 1) idx in
    let counts2 := copy_within counts1 (idx + 1) idx in
    (None, mkSummary (<[idx := key]> means2) (<[idx := value]> counts2)).

(** ** Rank and cumulative-weight queries *)

(** The first loop of [sumUntilIndex], four elements at a time; it
    returns the index and the sum with which the second loop starts. *)
Equations? sumUntilIndex_by4 (s : list Z) (i cumSum : Z) : option (Z * Z)
    by wf (Z.to_nat (i + 1)) lt :=
  sumUntilIndex_by4 s i cumSum with Z_le_dec 3 i => {
    | left _ with at_index s i, at_index s (i - 1),
                  at_index s (i - 2), at_index s (i - 3) => {
        | Some a, Some b, Some c, Some d =>
            sumUntilIndex_by4 s (i - 4)
              (add64 (add64 (add64 (add64 cumSum a) b) c) d)
        | _, _, _, _ => None };
    | right _ => Some (i, cumSum) }.
Proof. lia. Qed.

(** The second loop of [sumUntilIndex], one element at a time. *)
Equations? sumUntilIndex_by1 (s : list Z) (i cumSum : Z) : option Z
    by wf (Z.to_nat (i + 1)) lt :=
  sumUntilIndex_by1 s i cumSum with Z_le_dec 0 i => {
    | left _ with at_index s i => {
        | Some a => sumUntilIndex_by1 s (i - 1) (add64 cumSum a)
        | None => None };
    | right _ => Some cumSum }.
Proof. lia. Qed.

(** [i = idx - 1] is computed in [Z].  In Go it wraps at [idx =
    math.MinInt64] only; from any other [idx] both loops count down to
    [-1] at the lowest, inside [int]. *)
Definition sumUntilIndex (s : list Z) (idx : Z) : option Z :=
  '(i, cumSum) ← sumUntilIndex_by4 s (idx - 1) 0;
  sumUntilIndex_by1 s i cumSum.

Definition HeadSum (s : summary) (idx : Z) : option float64 :=
  of_Z <$> sumUntilIndex (counts s) idx.

(** The linear scan of [findIndex]: the first position, counted from [i],
    whose mean is greater than or equal to [x]. *)
Fixpoint scan_ge (l : list float64) (x : float64) (i : Z) : Z :=
  match l with
  | [] => i
  | mean :: l' => if geb mean x then i else scan_ge l' x (i + 1)
  end.

Definition findIndex (s : summary) (x : float64) : Z :=
  if len (means s) <? 250 then scan_ge (means s) x 0
  else Search (len (means s)) (probe geb (means s) x).

Definition Floor (s : summary) (x : float64) : Z := findIndex s x - 1.

Definition Mean (s : summary) (uncheckedIndex : Z) : option float64 :=
  at_index (means s) uncheckedIndex.

Definition Count (s : summary) (uncheckedIndex : Z) : option Z :=
  at_index (counts s) uncheckedIndex.

Definition GetTotalCount (s : summary) : Z :=
  fold_left add64 (counts s) 0.

(** The loop of [FloorSum] over [counts], from position [i] on: leaving
    the list is the end of the range, the [else] branch is the [break]. *)
Fixpoint FloorSum_loop (cs : list Z) (sum : float64) (i index : Z)
    (cumSum : float64) : Z * float64 :=
  match cs with
  | [] => (index, cumSum)
  | count :: cs' =>
      if leb cumSum sum
      then FloorSum_loop cs' sum (i + 1) i (add cumSum (of_Z count))
      else (index, cumSum)
  end.

Definition FloorSum (s : summary) (sum : float64) : option (Z * float64) :=
  let '(index, cumSum) := FloorSum_loop (counts s) sum 0 (-1) zero in
  if index =? -1 then Some (index, cumSum)
  else
    count ← at_index (counts s) index;
    Some (index, sub cumSum (of_Z count)).

(** ** In-place mutation with local re-sort *)

(** [l[i], l[j] = l[j], l[i]] once both indices are known to be in range *)
Definition exchange {A} (l : list A) (i j : nat) : list A :=
  match l !! i, l !! j with
  | Some a, Some b => <[j := a]> (<[i := b]> l)
  | _, _ => l
  end.

Definition in_range {A} (l : list A) (i : Z) : bool :=
  (0 <=? i) && (i <? len l).

(** The package-level [Swap(means, counts, i, j)] *)
Definition Swap (ms : list float64) (cs : list Z) (i j : Z)
    : option (list float64 * list Z) :=
  if in_range ms i && in_range ms j && in_range cs i && in_range cs j
  then Some (exchange ms (Z.to_nat i) (Z.to_nat j),
             exchange cs (Z.to_nat i) (Z.to_nat j))
  else None.

Definition exchange_summary (s : summary) (i j : Z) : summary :=
  mkSummary (exchange (means s) (Z.to_nat i) (Z.to_nat j))
            (exchange (counts s) (Z.to_nat i) (Z.to_nat j)).

(** [s.means[i] > s.means[j]], with its panic *)
Definition mean_gt (s : summary) (i j : Z) : option bool :=
  a ← at_index (means s) i; b ← at_index (means s) j; Some (gtb a b).

Equations? adjustRight_loop (s : summary) (i : Z) : option summary
    by wf (Z.to_nat (len (means s) - i)) lt :=
  adjustRight_loop s i with Z_lt_dec i (len (means s)) => {
    | right _ => Some s
    | left _ with mean_gt s (i - 1) i => {
        | None => None
        | Some false => Some s
        | Some true with in_range (counts s) (i - 1) && in_range (counts s) i => {
            | false => None
            | true => adjustRight_loop (exchange_summary s (i - 1) i) (i + 1) } } }.
Proof.
  unfold len, exchange in *. simpl.
  destruct (means s !! Z.to_nat (i - 1)), (means s !! Z.to_nat i);
    rewrite ?length_insert; lia.
Qed.

Definition adjustRight (s : summary) (index : Z) : option summary :=
  adjustRight_loop s (index + 1).

Equations? adjustLeft_loop (s : summary) (i : Z) : option summary
    by wf (Z.to_nat (i + 1)) lt :=
  adjustLeft_loop s i with Z_le_dec 0 i => {
    | right _ => Some s
    | left _ with mean_gt s i (i + 1) => {
        | None => None
        | Some false => Some s
        | Some true with in_range (counts s) i && in_range (counts s) (i + 1) => {
            | false => None
            | true => adjustLeft_loop (exchange_summary s i (i + 1)) (i - 1) } } }.
Proof. lia. Qed.

Definition adjustLeft (s : summary) (index : Z) : option summary :=
  adjustLeft_loop s (index - 1).

Definition setAt (s : summary) (index : Z) (mean : float64) (count : Z)
    : option summary :=
  means' ← set_index (means s) index mean;
  counts' ← set_index (counts s) index count;
  s1 ← adjustRight (mkSummary means' counts') index;
  adjustLeft s1 index.

Definition Less (s : summary) (i j : Z) : option bool :=
  a ← at_index (means s) i; b ← at_index (means s) j; Some (ltb a b).

(** ** Destructive shuffle *)

(** The injected random-integer source: [Intn n] draws an integer and
    moves the generator to its next state. *)
Class RNG (R : Type) : Type := Intn : R -> Z -> Z * R.

Section Shuffle.
Context {R : Type} `{RNG R}.

Equations? shuffle_loop (ms : list float64) (cs : list Z) (rng : R) (i : Z)
    : option (list float64 * list Z * R) by wf (Z.to_nat i) lt :=
  shuffle_loop ms cs rng i with Z_lt_dec 1 i => {
    | right _ => Some (ms, cs, rng)
    | left _ with Swap ms cs i (fst (Intn rng (i + 1))) => {
        | None => None
        | Some (ms', cs') =>
            shuffle_loop ms' cs' (snd (Intn rng (i + 1))) (i - 1) } }.
Proof. lia. Qed.

(** The package-level [shuffle(means, counts, rng)] *)
Definition shuffle_slices (ms : list float64) (cs : list Z) (rng : R)
    : option (list float64 * list Z * R) :=
  shuffle_loop ms cs rng (len ms - 1).

(** The method [(s *summary) shuffle(rng)] *)
Definition shuffle (s : summary) (rng : R) : option (summary * R) :=
  '(ms, cs, rng') ← shuffle_slices (means s) (counts s) rng;
  Some (mkSummary ms cs, rng').

(** The loop of [perm]: [m[i] = m[j]; m[j] = i] for [i] from 1 up to
    [n - 1], with [j] drawn in [0, i]. *)
Equations? perm_loop (m : list Z) (rng : R) (n i : Z) : option (list Z * R)
    by wf (Z.to_nat (n - i)) lt :=
  perm_loop m rng n i with Z_lt_dec i n => {
    | right _ => Some (m, rng)
    | left _ with at_index m (fst (Intn rng (i + 1))) => {
        | None => None
        | Some mj with set_index m i mj => {
            | None => None
            | Some m1 with set_index m1 (fst (Intn rng (i + 1))) i => {
                | None => None
                | Some m2 =>
                    perm_loop m2 (snd (Intn rng (i + 1))) n (i + 1) } } } }.
Proof. lia. Qed.

(** [make([]int, n)] panics for a negative [n]. *)
Definition perm (rng : R) (n : Z) : option (list Z * R) :=
  if n <? 0 then None else perm_loop (replicate (Z.to_nat n) 0) rng n 1.

End Shuffle.

(** ** Predicates and reference definitions used by the statements *)

(** The mean sequence is non-decreasing: every entry is [<=] the next. *)
Fixpoint sortedb (l : list float64) : bool :=
  match l with
  | [] => true
  | a :: l' =>
      match l' with
      | [] => true
      | b :: _ => leb a b && sortedb l'
      end
  end.

Definition no_nan (l : list float64) : bool :=
  forallb (fun m => negb (IsNaN m)) l.

(** The invariant of the data model: equal lengths, no NaN, sorted. *)
Record summary_ok (s : summary) : Prop := {
  ok_length : length (means s) = length (counts s);
  ok_no_nan : no_nan (means s) = true;
  ok_sorted : sortedb (means s) = true
}.

(** A valid argument pair of [Add]: the mean is a number, the count is
    positive. *)
Definition valid_add (p : float64 * Z) : bool :=
  negb (IsNaN p.1) && (0 <? p.2).

(** A sequence of [Add] calls, stopped by the first error. *)
Fixpoint AddAll (s : summary) (ops : list (float64 * Z)) : option summary :=
  match ops with
  | [] => Some s
  | (key, value) :: ops' =>
      match Add s key value with
      | (None, s') => AddAll s' ops'
      | (Some _, _) => None
      end
  end.

(** [a + b + ...] over a list, as a mathematical integer *)
Definition sumZ (l : list Z) : Z := foldr Z.add 0 l.

(** The plain prefix sum of the spec, [for i := 0; i < idx; i++ { sum +=
    s[i] }]: the counts at the indices of [0, idx) added up from the
    left, on uint64. *)
Definition plain_prefix_sum (cs : list Z) (idx : Z) : Z :=
  fold_left add64 (take (Z.to_nat idx) cs) 0.

(** [HeadSum] as the spec words it: the plain prefix sum, as a float64 *)
Definition HeadSum_plain (s : summary) (idx : Z) : float64 :=
  of_Z (plain_prefix_sum (counts s) idx).

(** The first position of [l], counted from [i], whose entry satisfies
    [p]: what both linear scans compute. *)
Fixpoint first_index (p : float64 -> bool) (l : list float64) (i : Z) : Z :=
  match l with
  | [] => i
  | a :: l' => if p a then i else first_index p l' (i + 1)
  end.

(** Insertion of [x] before the first entry that satisfies [p] *)
Fixpoint insert_before {A} (p : A -> bool) (x : A) (l : list A) : list A :=
  match l with
  | [] => [x]
  | a :: l' => if p a then x :: a :: l' else a :: insert_before p x l'
  end.

(** [m] carried to the right past the entries it is greater than: the
    effect of [adjustRight] on the entries after [m]. *)
Fixpoint bubble_right (m : float64) (post : list float64) : list float64 :=
  match post with
  | [] => [m]
  | b :: post' => if gtb m b then b :: bubble_right m post' else m :: b :: post'
  end.

(** [m] carried to the left past the entries that are greater than it: the
    effect of [adjustLeft]; [rpre] holds the entries before [m], the
    nearest one first. *)
Fixpoint bubble_left (rpre : list float64) (m : float64) (post : list float64)
    : list float64 :=
  match rpre with
  | [] => m :: post
  | a :: rpre' =>
      if gtb a m then bubble_left rpre' m (a :: post)
      else rev (a :: rpre') ++ m :: post
  end.

(** The float64 of mantissa [m] (53 binary digits) and exponent [e] is
    the integer [n]; both sides are scaled by [2^52] to stay in [Z]. *)
Definition represents (n : Z) (m : positive) (e : Z) : Prop :=
  Z.pos (Pos.size m) = 53 /\ -52 <= e <= 1 /\
  n * 2 ^ 52 = Z.pos m * 2 ^ (e + 52).

(** The cumulative weight before position [i]: the counts of the
    centroids at the indices of [0, i) added up, as an integer. *)
Definition weight_before (s : summary) (i : Z) : Z :=
  sumZ (take (Z.to_nat i) (counts s)).

(** A deterministic random-integer source for reproducible runs: the
    state is a counter, the draw for [n] is the counter modulo [n]. *)
#[global] Instance counter_rng : RNG Z := fun st n => (st mod n, st + 1).

(** ** Iteration with a visitor

    The callbacks of [ForEach] and [Perm] are Go closures that act on
    what they captured: a visitor takes the state it acts on and returns
    it with its answer, [true] to go on and [false] to stop.  A visitor
    does not touch the summary it is run on. *)

Definition visitor (St : Type) : Type := float64 -> Z -> St -> bool * St.

(** The loop of [ForEach] over [s.means], from position [i] on. *)
Fixpoint ForEach_loop {St} (f : visitor St) (ms : list float64) (cs : list Z)
    (i : Z) (st : St) : option St :=
  match ms with
  | [] => Some st
  | mean :: ms' =>
      match at_index cs i with
      | None => None
      | Some count =>
          let '(go_on, st') := f mean count st in
          if go_on then ForEach_loop f ms' cs (i + 1) st' else Some st'
      end
  end.

Definition ForEach {St} (s : summary) (f : visitor St) (st : St) : option St :=
  ForEach_loop f (means s) (counts s) 0 st.

(** The loop of [Perm] over the indices that [perm] returned. *)
Fixpoint Perm_loop {St} (f : visitor St) (s : summary) (order : list Z)
    (st : St) : option St :=
  match order with
  | [] => Some st
  | i :: order' =>
      match at_index (means s) i, at_index (counts s) i with
      | Some mean, Some count =>
          let '(go_on, st') := f mean count st in
          if go_on then Perm_loop f s order' st' else Some st'
      | _, _ => None
      end
  end.

Definition Perm {R} `{RNG R} {St} (s : summary) (rng : R) (f : visitor St)
    (st : St) : option (St * R) :=
  '(order, rng') ← perm rng (Len s);
  st' ← Perm_loop f s order st;
  Some (st', rng').

(** The visitor that keeps every pair it is shown, the last one first. *)
Definition collect : visitor (list (float64 * Z)) :=
  fun mean count seen => (true, (mean, count) :: seen).

(** [x == y] on float64: false when an operand is NaN, true on the
    two zeros. *)
Definition feqb (x y : float64) : bool := SFeqb x y.

(** The visitor that keeps every pair it is shown and goes on while the
    pair satisfies [p]. *)
Definition collect_while (p : float64 * Z -> bool) : visitor (list (float64 * Z)) :=
  fun mean count seen => (p (mean, count), (mean, count) :: seen).

(** The entries of [l] up to and including the first that fails [p] *)
Fixpoint take_until {A} (p : A -> bool) (l : list A) : list A :=
  match l with
  | [] => []
  | a :: l' => if p a then a :: take_until p l' else [a]
  end.

(** A source that breaks the contract of [Intn]: it draws [n] itself,
    which is not below [n]. *)
#[global] Instance stuck_rng : RNG unit := fun st n => (n, st).

(** * Properties *)

(** ** The order of float64 *)

Section FloatOrder.

Ltac fcases :=
  unfold leb, ltb, gtb, geb, SFleb, SFltb, SFcompare, IsNaN in *;
  change (Pos.compare_cont Eq) with Pos.compare in *;
  repeat match goal with
         | s : bool |- _ => destruct s
         end;
  repeat match goal with
         | H : context [(?a ?= ?b)%Z] |- _ => destruct (Z.compare_spec a b)
         | |- context [(?a ?= ?b)%Z] => destruct (Z.compare_spec a b)
         | H : context [(?a ?= ?b)%positive] |- _ => destruct (Pos.compare_spec a b)
         | |- context [(?a ?= ?b)%positive] => destruct (Pos.compare_spec a b)
         end;
  simpl in *; subst; try congruence; try lia.

Lemma leb_trans (a b c : float64) :
  leb a b = true -> leb b c = true -> leb a c = true.
Proof. destruct a, b, c; fcases. Qed.

Lemma leb_refl (a : float64) : IsNaN a = false -> leb a a = true.
Proof. destruct a; fcases. Qed.

Lemma leb_not_nan (a b : float64) :
  leb a b = true -> IsNaN a = false /\ IsNaN b = false.
Proof. destruct a, b; fcases; auto. Qed.

Lemma ltb_not_nan (a b : float64) :
  ltb a b = true -> IsNaN a = false /\ IsNaN b = false.
Proof. destruct a, b; fcases; auto. Qed.

(** On numbers (not NaN) the order is total: [a > b] fails exactly when
    [a <= b]. *)
Lemma gtb_false_leb (a b : float64) :
  IsNaN a = false -> IsNaN b = false -> gtb a b = false -> leb a b = true.
Proof. destruct a, b; fcases. Qed.

Lemma gtb_true_leb (a b : float64) : gtb a b = true -> leb b a = true.
Proof. destruct a, b; fcases. Qed.

Lemma gtb_true_not_leb (a b : float64) : gtb a b = true -> leb a b = false.
Proof. destruct a, b; fcases. Qed.

Lemma leb_true_not_gtb (a b : float64) : leb a b = true -> gtb a b = false.
Proof. destruct a, b; fcases. Qed.

Lemma geb_false_ltb (a b : float64) :
  IsNaN a = false -> IsNaN b = false -> geb a b = false -> ltb a b = true.
Proof. destruct a, b; fcases. Qed.

Lemma ltb_true_not_geb (a b : float64) : ltb a b = true -> geb a b = false.
Proof. destruct a, b; fcases. Qed.

Lemma geb_true_not_ltb (a b : float64) : geb a b = true -> ltb a b = false.
Proof. destruct a, b; fcases. Qed.

Lemma gtb_leb_trans (a b c : float64) :
  gtb a b = true -> leb a c = true -> gtb c b = true.
Proof. destruct a, b, c; fcases. Qed.

Lemma leb_gtb_trans (a b c : float64) :
  leb a b = true -> gtb a c = true -> gtb b c = true.
Proof. destruct a, b, c; fcases. Qed.

Lemma geb_leb_trans (a b c : float64) :
  geb a b = true -> leb a c = true -> geb c b = true.
Proof. destruct a, b, c; fcases. Qed.

End FloatOrder.

(** ** sort.Search *)

Lemma midpoint_bounds (i j : Z) : i < j -> i <= Z.shiftr (i + j) 1 < j.
Proof.
  intros Hij. rewrite Z.shiftr_div_pow2 by lia. change (2 ^ 1) with 2.
  pose proof (Z.div_mod (i + j) 2 ltac:(lia)).
  pose proof (Z.mod_pos_bound (i + j) 2 ltac:(lia)). lia.
Qed.

(** [sort.Search] stays inside [i, j], whatever the predicate. *)
Lemma Search_loop_range (f : Z -> bool) (i j : Z) :
  i <= j -> i <= Search_loop f i j <= j.
Proof.
  funelim (Search_loop f i j); intros Hij; try lia;
    pose proof (midpoint_bounds i j ltac:(lia));
    specialize (H ltac:(lia)); lia.
Qed.

(** The loop invariant of the binary search: [f] is false below [i] and
    true from [j] on; at the exit both hold of the result. *)
Lemma Search_loop_spec (f : Z -> bool) (i j : Z) (lo hi : Z) :
  i <= j ->
  (forall k, lo <= k < i -> f k = false) ->
  (forall k, j <= k < hi -> f k = true) ->
  (forall a b, i <= a <= b -> b < j -> f a = true -> f b = true) ->
  (forall k, lo <= k < Search_loop f i j -> f k = false) /\
  (forall k, Search_loop f i j <= k < hi -> f k = true).
Proof.
  funelim (Search_loop f i j); intros Hij Hlo Hhi Hmono.
  - (* i >= j: the loop is left *)
    split; intros k Hk; [apply Hlo | apply Hhi]; lia.
  - (* f h holds: j = h *)
    pose proof (midpoint_bounds i j ltac:(lia)) as Hh.
    apply H; try lia; auto.
    + intros k Hk. destruct (Z_lt_dec k j) as [Hlt|]; [|apply Hhi; lia].
      apply (Hmono (Z.shiftr (i + j) 1)); auto; lia.
    + intros a b Hab Hb. apply Hmono; lia.
  - (* f h fails: i = h + 1 *)
    pose proof (midpoint_bounds i j ltac:(lia)) as Hh.
    apply H; try lia; auto.
    + intros k Hk. destruct (Z_lt_dec k i) as [|Hge]; [apply Hlo; lia|].
      destruct (f k) eqn:Hfk; [|reflexivity].
      rewrite <- Heq. symmetry. apply (Hmono k); auto; lia.
    + intros a b Hab Hb. apply Hmono; lia.
Qed.

(** The search only calls [f] on indices of [i, j). *)
Lemma Search_loop_ext (f g : Z -> bool) (i j : Z) :
  (forall k, i <= k < j -> f k = g k) ->
  Search_loop f i j = Search_loop g i j.
Proof.
  funelim (Search_loop f i j); intros Hfg;
    rewrite (Search_loop_equation_1 g i j);
    destruct (Z_lt_dec i j); try lia; simpl; [reflexivity| |];
    pose proof (midpoint_bounds i j ltac:(lia)) as Hh;
    rewrite <- Hfg, Heq by lia; simpl;
    apply H; intros k Hk; apply Hfg; lia.
Qed.

Lemma Search_ext (n : Z) (f g : Z -> bool) :
  (forall k, 0 <= k < n -> f k = g k) -> Search n f = Search n g.
Proof. apply Search_loop_ext. Qed.

(** ** Slices *)

Lemma len_nonneg {A} (l : list A) : 0 <= len l.
Proof. unfold len. lia. Qed.

Lemma at_index_Some {A} (l : list A) (i : Z) (a : A) :
  at_index l i = Some a <-> 0 <= i /\ l !! Z.to_nat i = Some a.
Proof.
  unfold at_index. destruct (Z.ltb_spec i 0); split; intros; try easy; lia.
Qed.

Lemma at_index_nat {A} (l : list A) (n : nat) : at_index l (Z.of_nat n) = l !! n.
Proof.
  unfold at_index. destruct (Z.ltb_spec (Z.of_nat n) 0); [lia|].
  now rewrite Nat2Z.id.
Qed.

Lemma at_index_in_range {A} (l : list A) (i : Z) :
  0 <= i < len l -> exists a, at_index l i = Some a.
Proof.
  unfold len. intros Hi.
  destruct (lookup_lt_is_Some_2 l (Z.to_nat i) ltac:(lia)) as [a Ha].
  exists a. apply at_index_Some. split; [lia|assumption].
Qed.

Lemma at_index_range {A} (l : list A) (i : Z) (a : A) :
  at_index l i = Some a -> 0 <= i < len l.
Proof.
  intros [Hi Ha]%at_index_Some. apply lookup_lt_Some in Ha. unfold len. lia.
Qed.

(** Appending a slot, shifting the tail one place to the right with
    [copy] and storing at [idx] is the insertion of [v] before position
    [idx]. *)
Lemma insert_copy_within {A} (l : list A) (idx : nat) (d v : A) :
  (idx <= length l)%nat ->
  <[idx := v]> (copy_within (l ++ [d]) (idx + 1) idx)
  = take idx l ++ v :: drop idx l.
Proof.
  intros Hidx. unfold copy_within.
  rewrite length_app. simpl.
  replace (Nat.min (length l + 1 - (idx + 1)) (length l + 1 - idx))
    with (length l - idx)%nat by lia.
  rewrite (drop_ge (l ++ [d]) (idx + 1 + (length l - idx)))
    by (rewrite length_app; simpl; lia).
  rewrite app_nil_r.
  rewrite drop_app_le by lia.
  rewrite (take_app_le (drop idx l) [d] (length l - idx))
    by (rewrite length_drop; lia).
  rewrite (take_ge (drop idx l)) by (rewrite length_drop; lia).
  destruct (decide (idx = length l)) as [->|Hne].
  - rewrite (take_ge (l ++ [d])) by (rewrite length_app; simpl; lia).
    rewrite drop_all, take_ge, app_nil_r by lia.
    rewrite insert_app_r_alt by lia. rewrite Nat.sub_diag. reflexivity.
  - destruct (lookup_lt_is_Some_2 l idx ltac:(lia)) as [a Ha].
    rewrite (take_app_le l [d] (idx + 1)) by lia.
    replace (idx + 1)%nat with (S idx) by lia.
    rewrite (take_S_r l idx a Ha), <- app_assoc.
    rewrite insert_app_r_alt by (rewrite length_take; lia).
    rewrite length_take, Nat.min_l, Nat.sub_diag by lia. reflexivity.
Qed.

(** ** Linear scans *)

Lemma scan_gt_first_index (l : list float64) (x : float64) (i : Z) :
  scan_gt l x i = first_index (fun m => gtb m x) l i.
Proof. revert i. induction l as [|a l IH]; intros i; simpl; [|rewrite IH]; reflexivity. Qed.

Lemma scan_ge_first_index (l : list float64) (x : float64) (i : Z) :
  scan_ge l x i = first_index (fun m => geb m x) l i.
Proof. revert i. induction l as [|a l IH]; intros i; simpl; [|rewrite IH]; reflexivity. Qed.

Lemma first_index_spec (p : float64 -> bool) (l : list float64) (i : Z) :
  i <= first_index p l i <= i + len l /\
  (forall (k : nat) a, l !! k = Some a -> i + Z.of_nat k < first_index p l i ->
                       p a = false) /\
  (forall a, l !! Z.to_nat (first_index p l i - i) = Some a -> p a = true).
Proof.
  revert i. induction l as [|b l IH]; intros i; simpl.
  - unfold len; simpl. repeat split; try lia. all: intros; discriminate.
  - destruct (p b) eqn:Hb.
    + unfold len; simpl. repeat split; try lia.
      rewrite Z.sub_diag. simpl. congruence.
    + destruct (IH (i + 1)) as (Hr & Hlt & Hat). unfold len in *. simpl.
      repeat split; try lia.
      * intros [|k] a Ha Hk; simpl in Ha; [congruence|].
        apply (Hlt k); [assumption|lia].
      * intros a Ha.
        replace (Z.to_nat (first_index p l (i + 1) - i))
          with (S (Z.to_nat (first_index p l (i + 1) - (i + 1)))) in Ha by lia.
        apply Hat. exact Ha.
Qed.

(** Inserting at the position found by the scan is [insert_before]. *)
Lemma insert_at_first_index (p : float64 -> bool) (l : list float64) (i : Z) (x : float64) :
  take (Z.to_nat (first_index p l i - i)) l
    ++ x :: drop (Z.to_nat (first_index p l i - i)) l
  = insert_before p x l.
Proof.
  revert i. induction l as [|b l IH]; intros i; simpl.
  - rewrite Z.sub_diag. reflexivity.
  - destruct (p b) eqn:Hb.
    + rewrite Z.sub_diag. reflexivity.
    + pose proof (first_index_spec p l (i + 1)) as (Hr & _).
      replace (Z.to_nat (first_index p l (i + 1) - i))
        with (S (Z.to_nat (first_index p l (i + 1) - (i + 1)))) by lia.
      simpl. f_equal. apply IH.
Qed.

(** On a slice whose entries satisfy [p] from some point on, the binary
    search and the linear scan find the same index. *)
Lemma Search_first_index (p : float64 -> bool) (l : list float64) :
  (forall (i j : nat) a b, (i <= j)%nat -> l !! i = Some a -> l !! j = Some b ->
                           p a = true -> p b = true) ->
  Search (len l) (fun k => match at_index l k with
                           | Some m => p m
                           | None => false
                           end)
  = first_index p l 0.
Proof.
  intros Hmono. unfold Search.
  set (f := fun k : Z => match at_index l k with Some m => p m | None => false end).
  pose proof (len_nonneg l) as Hn.
  pose proof (Search_loop_range f 0 (len l) Hn) as Hr.
  destruct (Search_loop_spec f 0 (len l) 0 (len l)) as (Hlo & Hhi);
    [lia| intros; lia | intros; lia | |].
  { intros a b Hab Hb Hfa. unfold f in *.
    destruct (at_index_in_range l a ltac:(lia)) as [ma Hma].
    destruct (at_index_in_range l b ltac:(lia)) as [mb Hmb].
    rewrite Hma in Hfa. rewrite Hmb.
    apply at_index_Some in Hma as [_ Hma]. apply at_index_Some in Hmb as [_ Hmb].
    apply (Hmono (Z.to_nat a) (Z.to_nat b) ma mb); auto. lia. }
  destruct (first_index_spec p l 0) as (Hr' & Hlt & Hat).
  set (r := Search_loop f 0 (len l)) in *.
  set (r' := first_index p l 0) in *.
  destruct (Z.lt_trichotomy r r') as [Hlt'|[Heq|Hgt]]; [|assumption|]; exfalso.
  - destruct (at_index_in_range l r ltac:(lia)) as [m Hm].
    pose proof (Hhi r ltac:(lia)) as Hfr. unfold f in Hfr. rewrite Hm in Hfr.
    apply at_index_Some in Hm as [_ Hm].
    rewrite (Hlt (Z.to_nat r) m Hm) in Hfr; [discriminate|lia].
  - destruct (at_index_in_range l r' ltac:(lia)) as [m Hm].
    pose proof (Hlo r' ltac:(lia)) as Hfr. unfold f in Hfr. rewrite Hm in Hfr.
    apply at_index_Some in Hm as [_ Hm].
    rewrite Z.sub_0_r in Hat. rewrite (Hat m Hm) in Hfr. discriminate.
Qed.

(** ** Sorted mean sequences *)

Lemma sortedb_cons (a b : float64) (l : list float64) :
  sortedb (a :: b :: l) = leb a b && sortedb (b :: l).
Proof. reflexivity. Qed.

Lemma sortedb_tail (a : float64) (l : list float64) :
  sortedb (a :: l) = true -> sortedb l = true.
Proof. destruct l as [|b l]; [reflexivity|]. rewrite sortedb_cons. now intros [_ ?]%andb_true_iff. Qed.

(** In a sorted sequence the head is below every later entry. *)
Lemma sortedb_head_le (a : float64) (l : list float64) :
  sortedb (a :: l) = true -> forall (k : nat) b, l !! k = Some b -> leb a b = true.
Proof.
  revert a. induction l as [|c l IH]; intros a Hs k b Hk; [discriminate|].
  rewrite sortedb_cons in Hs. apply andb_true_iff in Hs as [Hac Hs].
  destruct k as [|k]; simpl in Hk.
  - congruence.
  - apply (leb_trans a c b Hac). apply (IH c Hs k b Hk).
Qed.

Lemma sortedb_lookup_le (l : list float64) (i j : nat) (a b : float64) :
  sortedb l = true -> (i < j)%nat -> l !! i = Some a -> l !! j = Some b ->
  leb a b = true.
Proof.
  revert i j. induction l as [|c l IH]; intros i j Hs Hij Hi Hj; [discriminate|].
  destruct j as [|j]; [lia|]. simpl in Hj.
  destruct i as [|i]; simpl in Hi.
  - inversion Hi; subst c. apply (sortedb_head_le a l Hs j b Hj).
  - apply (IH i j); [eapply sortedb_tail; eassumption|lia|assumption..].
Qed.

(** The index form of the invariant: each entry is [<=] its successor. *)
Lemma sortedb_adjacent (l : list float64) :
  sortedb l = true <->
  (forall (i : nat) a b, l !! i = Some a -> l !! S i = Some b -> leb a b = true).
Proof.
  split.
  - intros Hs i a b Ha Hb. apply (sortedb_lookup_le l i (S i) a b); auto.
  - induction l as [|a l IH]; intros H; [reflexivity|].
    destruct l as [|b l]; [reflexivity|].
    rewrite sortedb_cons. apply andb_true_iff. split.
    + apply (H 0%nat); reflexivity.
    + apply IH. intros i x y Hx Hy. apply (H (S i)); assumption.
Qed.

(** A sorted sequence of at least two entries holds no NaN. *)
Lemma sortedb_no_nan (l : list float64) :
  sortedb l = true -> (2 <= length l)%nat -> no_nan l = true.
Proof.
  induction l as [|a l IH]; intros Hs Hl; [reflexivity|].
  destruct l as [|b l]; [simpl in Hl; lia|].
  rewrite sortedb_cons in Hs. apply andb_true_iff in Hs as [Hab Hs].
  destruct (leb_not_nan a b Hab) as [Ha Hb].
  unfold no_nan in *. cbn [forallb]. rewrite Ha. simpl.
  destruct l as [|c l].
  - simpl. rewrite Hb. reflexivity.
  - apply IH; [assumption|simpl; lia].
Qed.

Lemma no_nan_lookup (l : list float64) (i : nat) (a : float64) :
  no_nan l = true -> l !! i = Some a -> IsNaN a = false.
Proof.
  unfold no_nan. rewrite forallb_forall. intros H Ha.
  apply negb_true_iff. apply H. apply list_elem_of_In.
  eapply list_elem_of_lookup_2; eassumption.
Qed.

Lemma no_nan_cons (a : float64) (l : list float64) :
  no_nan (a :: l) = true <-> IsNaN a = false /\ no_nan l = true.
Proof.
  unfold no_nan. cbn [forallb]. rewrite andb_true_iff, negb_true_iff. tauto.
Qed.

(** Sorted sequences make the predicates of both searches monotone. *)
Lemma sorted_gtb_mono (l : list float64) (x : float64) :
  sortedb l = true ->
  forall (i j : nat) a b, (i <= j)%nat -> l !! i = Some a -> l !! j = Some b ->
                          gtb a x = true -> gtb b x = true.
Proof.
  intros Hs i j a b Hij Ha Hb Hax.
  destruct (decide (i = j)) as [->|Hne]; [congruence|].
  apply (leb_gtb_trans a b x); [|assumption].
  apply (sortedb_lookup_le l i j); auto. lia.
Qed.

Lemma sorted_geb_mono (l : list float64) (x : float64) :
  sortedb l = true ->
  forall (i j : nat) a b, (i <= j)%nat -> l !! i = Some a -> l !! j = Some b ->
                          geb a x = true -> geb b x = true.
Proof.
  intros Hs i j a b Hij Ha Hb Hax.
  destruct (decide (i = j)) as [->|Hne]; [congruence|].
  apply (geb_leb_trans a x b); [assumption|].
  apply (sortedb_lookup_le l i j); auto. lia.
Qed.

(** On a sorted summary both strategies of [findInsertionIndex] agree
    with the linear scan; so do those of [findIndex]. *)
Lemma findInsertionIndex_scan (s : summary) (x : float64) :
  sortedb (means s) = true ->
  findInsertionIndex s x = first_index (fun m => gtb m x) (means s) 0.
Proof.
  intros Hs. unfold findInsertionIndex.
  destruct (len (means s) <? 250).
  - apply scan_gt_first_index.
  - apply (Search_first_index (fun m => gtb m x)). now apply sorted_gtb_mono.
Qed.

Lemma findIndex_scan (s : summary) (x : float64) :
  sortedb (means s) = true ->
  findIndex s x = first_index (fun m => geb m x) (means s) 0.
Proof.
  intros Hs. unfold findIndex.
  destruct (len (means s) <? 250).
  - apply scan_ge_first_index.
  - apply (Search_first_index (fun m => geb m x)). now apply sorted_geb_mono.
Qed.

(** The insertion index is a position of the slice or its length,
    whether the slice is sorted or not. *)
Lemma findInsertionIndex_range (s : summary) (x : float64) :
  0 <= findInsertionIndex s x <= Len s.
Proof.
  unfold findInsertionIndex, Len.
  destruct (len (means s) <? 250).
  - rewrite scan_gt_first_index.
    pose proof (first_index_spec (fun m => gtb m x) (means s) 0) as (Hr & _). lia.
  - apply Search_loop_range, len_nonneg.
Qed.

(** ** Add *)

Lemma newSummary_ok (cap : Z) : summary_ok (newSummary cap).
Proof. split; reflexivity. Qed.

(** What a successful [Add] stores: the key goes before the first mean
    that is greater, the count goes to the same position. *)
Lemma Add_valid (s : summary) (key : float64) (value : Z) :
  IsNaN key = false -> value <> 0 ->
  sortedb (means s) = true -> length (means s) = length (counts s) ->
  let idx := Z.to_nat (first_index (fun m => gtb m key) (means s) 0) in
  Add s key value
  = (None, mkSummary (insert_before (fun m => gtb m key) key (means s))
                     (take idx (counts s) ++ value :: drop idx (counts s))).
Proof.
  intros Hnan Hval Hs Hlen idx. unfold Add.
  rewrite Hnan. destruct (Z.eqb_spec value 0) as [|_]; [contradiction|].
  rewrite (findInsertionIndex_scan s key Hs). fold idx.
  pose proof (first_index_spec (fun m => gtb m key) (means s) 0) as (Hr & _).
  unfold len in Hr.
  rewrite !insert_copy_within by (subst idx; lia).
  f_equal. f_equal.
  rewrite <- (insert_at_first_index (fun m => gtb m key) (means s) 0 key).
  rewrite Z.sub_0_r. reflexivity.
Qed.

Lemma insert_before_no_nan (p : float64 -> bool) (x : float64) (l : list float64) :
  IsNaN x = false -> no_nan l = true -> no_nan (insert_before p x l) = true.
Proof.
  intros Hx. induction l as [|a l IH]; intros Hl; cbn [insert_before].
  - apply no_nan_cons. auto.
  - apply no_nan_cons in Hl as [Ha Hl]. destruct (p a).
    + apply no_nan_cons. split; [assumption|]. apply no_nan_cons. auto.
    + apply no_nan_cons. auto.
Qed.

(** Insertion before the first greater mean keeps the sequence sorted. *)
Lemma insert_before_sorted (x : float64) (l : list float64) :
  IsNaN x = false -> no_nan l = true -> sortedb l = true ->
  sortedb (insert_before (fun m => gtb m x) x l) = true.
Proof.
  intros Hx. induction l as [|a l IH]; intros Hn Hs; [reflexivity|].
  apply no_nan_cons in Hn as [Ha Hn]. cbn [insert_before].
  destruct (gtb a x) eqn:Hax.
  - rewrite sortedb_cons, Hs, (gtb_true_leb a x Hax). reflexivity.
  - specialize (IH Hn (sortedb_tail a l Hs)).
    destruct l as [|b l]; cbn [insert_before] in *.
    + rewrite sortedb_cons, (gtb_false_leb a x Ha Hx Hax). reflexivity.
    + rewrite sortedb_cons in Hs. apply andb_true_iff in Hs as [Hab Hs].
      destruct (gtb b x).
      * rewrite sortedb_cons, (gtb_false_leb a x Ha Hx Hax). exact IH.
      * rewrite sortedb_cons, Hab. exact IH.
Qed.

Lemma Add_ok (s : summary) (key : float64) (value : Z) :
  summary_ok s -> valid_add (key, value) = true ->
  exists s', Add s key value = (None, s') /\ summary_ok s'.
Proof.
  intros [Hlen Hn Hs] Hv. unfold valid_add in Hv. simpl in Hv.
  apply andb_true_iff in Hv as [Hk Hc].
  apply negb_true_iff in Hk. apply Z.ltb_lt in Hc.
  eexists. split; [apply Add_valid; auto; lia|].
  pose proof (first_index_spec (fun m => gtb m key) (means s) 0) as (Hr & _).
  unfold len in Hr.
  split; simpl.
  - rewrite <- (insert_at_first_index _ (means s) 0 key), Z.sub_0_r.
    rewrite !length_app. simpl.
    rewrite !length_take, !length_drop. lia.
  - apply insert_before_no_nan; assumption.
  - apply insert_before_sorted; assumption.
Qed.

Lemma AddAll_ok (ops : list (float64 * Z)) (s : summary) :
  summary_ok s -> forallb valid_add ops = true ->
  exists s', AddAll s ops = Some s' /\ summary_ok s'.
Proof.
  revert s. induction ops as [|[key value] ops IH]; intros s Hok Hv.
  - exists s. split; [reflexivity|assumption].
  - cbn [forallb] in Hv. apply andb_true_iff in Hv as [Hv Hvs].
    destruct (Add_ok s key value Hok Hv) as (s1 & HA & Hok1).
    cbn [AddAll]. rewrite HA. apply IH; assumption.
Qed.

Lemma forallb_take {A} (p : A -> bool) (l : list A) (k : nat) :
  forallb p l = true -> forallb p (take k l) = true.
Proof.
  revert k. induction l as [|a l IH]; intros [|k] H; try reflexivity.
  cbn [forallb take] in *. apply andb_true_iff in H as [-> H]. simpl. auto.
Qed.

(** C1. Starting from the empty summary, after each call of a sequence of
    [Add] calls whose means are numbers and whose counts are positive, all
    calls so far have succeeded and the stored means are non-decreasing:
    whatever the number [k] of calls made, the summary they leave is
    sorted. *)
Theorem Add_sort_invariant (cap : Z) (ops : list (float64 * Z)) (k : nat) :
  forallb valid_add ops = true ->
  exists s, AddAll (newSummary cap) (take k ops) = Some s /\
            sortedb (means s) = true.
Proof.
  intros Hv.
  destruct (AddAll_ok (take k ops) (newSummary cap) (newSummary_ok cap)
              (forallb_take valid_add ops k Hv)) as (s & Hs & Hok).
  exists s. split; [assumption|apply Hok].
Qed.

Lemma Add_sort_invariant_witness :
  exists s, AddAll (newSummary 8)
              (take 2 [(of_Z 5, 1); (of_Z 3, 2); (of_Z 3, 1)]) = Some s /\
            sortedb (means s) = true.
Proof.
  apply (Add_sort_invariant 8 [(of_Z 5, 1); (of_Z 3, 2); (of_Z 3, 1)] 2).
  vm_compute. reflexivity.
Defined.

(** C2. On every summary, [Add] of a NaN mean (with any count) and [Add]
    of a zero count (with any mean) both return an error and leave the
    summary as it was: the same [Len], the same means and counts. *)
Theorem Add_rejects_unchanged (s : summary) (m : float64) (c : Z) :
  (fst (Add s NaN c) = Some KeyIsNaN /\ snd (Add s NaN c) = s /\
   Len (snd (Add s NaN c)) = Len s) /\
  (fst (Add s m 0) <> None /\ snd (Add s m 0) = s /\
   Len (snd (Add s m 0)) = Len s).
Proof.
  split.
  - repeat split.
  - unfold Add. destruct (IsNaN m); simpl; repeat split; discriminate.
Qed.

(** ** setAt *)

Lemma adjustRight_loop_step (s : summary) (i : Z) :
  adjustRight_loop s i =
  if Z_lt_dec i (len (means s)) then
    match mean_gt s (i - 1) i with
    | None => None
    | Some false => Some s
    | Some true =>
        if in_range (counts s) (i - 1) && in_range (counts s) i
        then adjustRight_loop (exchange_summary s (i - 1) i) (i + 1)
        else None
    end
  else Some s.
Proof.
  funelim (adjustRight_loop s i); try clear Heqcall;
    repeat match goal with
           | H : ?x = _ |- context [?x] => rewrite H
           end; reflexivity.
Qed.

Lemma adjustLeft_loop_step (s : summary) (i : Z) :
  adjustLeft_loop s i =
  if Z_le_dec 0 i then
    match mean_gt s i (i + 1) with
    | None => None
    | Some false => Some s
    | Some true =>
        if in_range (counts s) i && in_range (counts s) (i + 1)
        then adjustLeft_loop (exchange_summary s i (i + 1)) (i - 1)
        else None
    end
  else Some s.
Proof.
  funelim (adjustLeft_loop s i); try clear Heqcall;
    repeat match goal with
           | H : ?x = _ |- context [?x] => rewrite H
           end; reflexivity.
Qed.

Lemma len_app {A} (l1 l2 : list A) : len (l1 ++ l2) = len l1 + len l2.
Proof. unfold len. rewrite length_app. lia. Qed.

Lemma len_cons {A} (a : A) (l : list A) : len (a :: l) = len l + 1.
Proof. unfold len. simpl. lia. Qed.

Lemma at_index_middle {A} (pre post : list A) (a : A) :
  at_index (pre ++ a :: post) (len pre) = Some a.
Proof. unfold len. rewrite at_index_nat. now apply list_lookup_middle. Qed.

Lemma at_index_middle_next {A} (pre post : list A) (a b : A) :
  at_index (pre ++ a :: b :: post) (len pre + 1) = Some b.
Proof.
  replace (pre ++ a :: b :: post) with ((pre ++ [a]) ++ b :: post)
    by now rewrite <- app_assoc.
  replace (len pre + 1) with (len (pre ++ [a])) by (rewrite len_app; reflexivity).
  apply at_index_middle.
Qed.

Lemma exchange_adjacent {A} (pre post : list A) (a b : A) :
  exchange (pre ++ a :: b :: post) (length pre) (S (length pre))
  = pre ++ b :: a :: post.
Proof.
  unfold exchange.
  rewrite (list_lookup_middle pre (b :: post) a (length pre) eq_refl).
  replace (pre ++ a :: b :: post) with ((pre ++ [a]) ++ b :: post)
    by now rewrite <- app_assoc.
  rewrite (list_lookup_middle (pre ++ [a]) post b (S (length pre)))
    by (rewrite length_app; simpl; lia).
  rewrite <- app_assoc. simpl.
  rewrite insert_app_r_alt by lia. rewrite Nat.sub_diag. simpl.
  rewrite insert_app_r_alt by lia.
  replace (S (length pre) - length pre)%nat with 1%nat by lia. reflexivity.
Qed.

Lemma exchange_length {A} (l : list A) (i j : nat) :
  length (exchange l i j) = length l.
Proof.
  unfold exchange. destruct (l !! i), (l !! j); auto.
  now rewrite !length_insert.
Qed.

Lemma in_range_true {A} (l : list A) (i : Z) :
  0 <= i < len l -> in_range l i = true.
Proof. unfold in_range. intros. apply andb_true_iff. split; lia. Qed.

(** [adjustRight] started behind [m] carries [m] to the right. *)
Lemma adjustRight_loop_bubble (post pre : list float64) (m : float64) (cs : list Z) :
  length cs = length (pre ++ m :: post) ->
  exists cs',
    adjustRight_loop (mkSummary (pre ++ m :: post) cs) (len pre + 1)
    = Some (mkSummary (pre ++ bubble_right m post) cs') /\
    length cs' = length cs.
Proof.
  revert pre cs. induction post as [|b post IH]; intros pre cs Hlen;
    rewrite adjustRight_loop_step; cbn [means counts].
  - destruct (Z_lt_dec _ _) as [Hlt|_].
    + rewrite len_app, len_cons in Hlt. unfold len in Hlt. simpl in Hlt. lia.
    + exists cs. split; reflexivity.
  - destruct (Z_lt_dec _ _) as [_|Hge].
    2:{ rewrite len_app, !len_cons in Hge. pose proof (len_nonneg post). lia. }
    unfold mean_gt. cbn [means].
    replace (len pre + 1 - 1) with (len pre) by lia.
    rewrite at_index_middle, at_index_middle_next. simpl.
    destruct (gtb m b) eqn:Hmb.
    + rewrite length_app in Hlen. simpl in Hlen.
      rewrite !in_range_true by (unfold len; lia). simpl.
      unfold exchange_summary. cbn [means counts].
      replace (Z.to_nat (len pre)) with (length pre) by (unfold len; lia).
      replace (Z.to_nat (len pre + 1)) with (S (length pre)) by (unfold len; lia).
      rewrite exchange_adjacent.
      destruct (IH (pre ++ [b]) (exchange cs (length pre) (S (length pre))))
        as (cs' & Hrun & Hlen').
      { rewrite exchange_length, !length_app. simpl. lia. }
      exists cs'. rewrite len_app in Hrun.
      change (len [b]) with 1 in Hrun.
      rewrite <- !app_assoc in Hrun. simpl in Hrun.
      rewrite Hrun. split; [reflexivity|].
      now rewrite Hlen', exchange_length.
    + exists cs. split; reflexivity.
Qed.

(** [adjustLeft] started in front of [m] carries [m] to the left. *)
Lemma adjustLeft_loop_bubble (rpre post : list float64) (m : float64) (cs : list Z) :
  length cs = length (rev rpre ++ m :: post) ->
  exists cs',
    adjustLeft_loop (mkSummary (rev rpre ++ m :: post) cs) (len rpre - 1)
    = Some (mkSummary (bubble_left rpre m post) cs') /\
    length cs' = length cs.
Proof.
  revert post cs. induction rpre as [|a rpre IH]; intros post cs Hlen;
    rewrite adjustLeft_loop_step; cbn [means counts].
  - destruct (Z_le_dec _ _) as [Hle|_]; [unfold len in Hle; simpl in Hle; lia|].
    exists cs. split; reflexivity.
  - destruct (Z_le_dec _ _) as [_|Hlt].
    2:{ rewrite len_cons in Hlt. pose proof (len_nonneg rpre). lia. }
    assert (Hi : len (a :: rpre) - 1 = len (rev rpre))
      by (unfold len; rewrite length_rev; simpl; lia).
    rewrite Hi. unfold mean_gt. cbn [means rev].
    rewrite <- app_assoc. cbn [app].
    rewrite at_index_middle, at_index_middle_next. simpl.
    destruct (gtb a m) eqn:Ham.
    + cbn [rev] in Hlen. rewrite <- app_assoc, length_app in Hlen. simpl in Hlen.
      rewrite !in_range_true by (unfold len; lia). simpl.
      unfold exchange_summary. cbn [means counts].
      replace (Z.to_nat (len (rev rpre))) with (length (rev rpre))
        by (unfold len; lia).
      replace (Z.to_nat (len (rev rpre) + 1)) with (S (length (rev rpre)))
        by (unfold len; lia).
      rewrite exchange_adjacent.
      destruct (IH (a :: post)
                  (exchange cs (length (rev rpre)) (S (length (rev rpre)))))
        as (cs' & Hrun & Hlen').
      { rewrite exchange_length, !length_app. simpl. lia. }
      exists cs'.
      replace (len (rev rpre) - 1) with (len rpre - 1)
        by (unfold len; rewrite length_rev; lia).
      rewrite Hrun. split; [reflexivity|].
      now rewrite Hlen', exchange_length.
    + exists cs. cbn [bubble_left rev]. rewrite <- app_assoc.
      split; reflexivity.
Qed.

Lemma sortedb_app (l1 l2 : list float64) :
  sortedb (l1 ++ l2) = true <->
  sortedb l1 = true /\ sortedb l2 = true /\
  (forall a b, last l1 = Some a -> head l2 = Some b -> leb a b = true).
Proof.
  induction l1 as [|a l1 IH].
  - simpl. split; [intros H; repeat split; auto; discriminate|tauto].
  - destruct l1 as [|c l1].
    + destruct l2 as [|b l2]; simpl.
      * split; [intros _; repeat split; discriminate|reflexivity].
      * rewrite andb_true_iff. split.
        -- intros [Hab Hs]. repeat split; auto. intros x y Hx Hy.
           inversion Hx; inversion Hy; subst. assumption.
        -- intros (_ & Hs & H). split; [apply H; reflexivity|assumption].
    + change ((a :: c :: l1) ++ l2) with (a :: (c :: l1) ++ l2).
      change ((c :: l1) ++ l2) with (c :: l1 ++ l2) at 1.
      rewrite !sortedb_cons, !andb_true_iff.
      change (c :: l1 ++ l2) with ((c :: l1) ++ l2). rewrite IH.
      change (last (a :: c :: l1)) with (last (c :: l1)). tauto.
Qed.

Lemma no_nan_app (l1 l2 : list float64) :
  no_nan (l1 ++ l2) = true <-> no_nan l1 = true /\ no_nan l2 = true.
Proof. unfold no_nan. rewrite forallb_app, andb_true_iff. tauto. Qed.

Lemma bubble_right_sorted (m : float64) (post : list float64) :
  IsNaN m = false -> no_nan post = true -> sortedb post = true ->
  sortedb (bubble_right m post) = true.
Proof.
  intros Hm. induction post as [|b post IH]; intros Hn Hs; [reflexivity|].
  apply no_nan_cons in Hn as [Hb Hn]. cbn [bubble_right].
  destruct (gtb m b) eqn:Hmb.
  - specialize (IH Hn (sortedb_tail b post Hs)).
    destruct post as [|c post]; cbn [bubble_right] in *.
    + rewrite sortedb_cons, (gtb_true_leb m b Hmb). reflexivity.
    + rewrite sortedb_cons in Hs. apply andb_true_iff in Hs as [Hbc Hs].
      destruct (gtb m c).
      * rewrite sortedb_cons, Hbc. exact IH.
      * rewrite sortedb_cons, (gtb_true_leb m b Hmb). exact IH.
  - rewrite sortedb_cons, Hs, (gtb_false_leb m b Hm Hb Hmb). reflexivity.
Qed.

Lemma bubble_left_sorted (rpre : list float64) (m : float64) (post : list float64) :
  IsNaN m = false -> no_nan rpre = true ->
  sortedb (rev rpre) = true -> sortedb (m :: post) = true ->
  (forall a b, last (rev rpre) = Some a -> head post = Some b -> leb a b = true) ->
  sortedb (bubble_left rpre m post) = true.
Proof.
  intros Hm. revert post.
  induction rpre as [|a rpre IH]; intros post Hn Hpre Hpost Hle; [exact Hpost|].
  apply no_nan_cons in Hn as [Ha Hn]. cbn [bubble_left].
  cbn [rev] in Hpre, Hle. rewrite last_snoc in Hle.
  apply sortedb_app in Hpre as (Hpre & _ & Hpa).
  destruct (gtb a m) eqn:Ham.
  - apply IH; [assumption..| |].
    + rewrite sortedb_cons, (gtb_true_leb a m Ham). cbn [andb].
      destruct post as [|b post]; [reflexivity|].
      rewrite sortedb_cons, (Hle a b eq_refl eq_refl).
      apply (sortedb_tail m _ Hpost).
    + intros x y Hx Hy. inversion Hy; subst y. apply Hpa; auto.
  - cbn [rev]. apply sortedb_app. split; [|split; [assumption|]].
    + apply sortedb_app. repeat split; auto.
    + intros x y Hx Hy. rewrite last_snoc in Hx.
      inversion Hx; inversion Hy; subst. apply gtb_false_leb; assumption.
Qed.

Lemma no_nan_rev (l : list float64) : no_nan (rev l) = no_nan l.
Proof.
  unfold no_nan. induction l as [|a l IH]; [reflexivity|].
  cbn [rev forallb]. rewrite forallb_app, IH. simpl.
  rewrite andb_true_r. apply andb_comm.
Qed.

(** What a sorted sequence says about the parts around one entry. *)
Lemma sorted_around (pre post : list float64) (old : float64) :
  sortedb (pre ++ old :: post) = true ->
  sortedb pre = true /\ sortedb post = true /\
  no_nan pre = true /\ no_nan post = true /\
  (forall a b, last pre = Some a -> head post = Some b -> leb a b = true).
Proof.
  intros Hs.
  assert (Hn : no_nan pre = true /\ no_nan post = true).
  { destruct pre as [|a pre], post as [|b post]; [split; reflexivity|..].
    all: pose proof (sortedb_no_nan _ Hs
                       ltac:(rewrite length_app; simpl; lia)) as Hall;
      apply no_nan_app in Hall as [Hp Hall];
      apply no_nan_cons in Hall as [_ Hall]; split; assumption. }
  apply sortedb_app in Hs as (Hpre & Hpost & Hle).
  destruct Hn as [Hn1 Hn2]. repeat split; auto.
  - apply (sortedb_tail old post Hpost).
  - intros a b Ha Hb. apply (leb_trans a old b).
    + apply Hle; [assumption|reflexivity].
    + destruct post as [|c post]; [discriminate|]. inversion Hb; subst c.
      rewrite sortedb_cons in Hpost. now apply andb_true_iff in Hpost as [? _].
Qed.

Lemma set_index_middle {A} (pre post : list A) (old v : A) :
  set_index (pre ++ old :: post) (len pre) v = Some (pre ++ v :: post).
Proof.
  unfold set_index. rewrite at_index_middle. f_equal.
  replace (Z.to_nat (len pre)) with (length pre) by (unfold len; lia).
  rewrite insert_app_r_alt by lia. now rewrite Nat.sub_diag.
Qed.

Lemma split_at_index {A} (l : list A) (i : Z) :
  0 <= i < len l ->
  exists pre old post, l = pre ++ old :: post /\ len pre = i.
Proof.
  intros Hi. destruct (at_index_in_range l i Hi) as [old Hold].
  apply at_index_Some in Hold as [_ Hold].
  exists (take (Z.to_nat i) l), old, (drop (S (Z.to_nat i)) l). split.
  - symmetry. now apply take_drop_middle.
  - unfold len in *. rewrite length_take. lia.
Qed.

Lemma bubble_right_length (m : float64) (post : list float64) :
  length (bubble_right m post) = S (length post).
Proof.
  induction post as [|b post IH]; [reflexivity|].
  cbn [bubble_right]. destruct (gtb m b); simpl; auto.
Qed.

Lemma bubble_left_length (rpre : list float64) (m : float64) (post : list float64) :
  length (bubble_left rpre m post) = (length rpre + S (length post))%nat.
Proof.
  revert post. induction rpre as [|a rpre IH]; intros post; [reflexivity|].
  cbn [bubble_left]. destruct (gtb a m).
  - rewrite IH. simpl. lia.
  - rewrite length_app, length_rev. reflexivity.
Qed.

(** The shape of the summary that [setAt] leaves: the new mean carried
    right, then the entry found at [index] carried left. *)
Lemma setAt_shape (pre post : list float64) (old mean : float64)
    (cs : list Z) (count : Z) :
  length (pre ++ old :: post) = length cs ->
  exists c post' cs',
    bubble_right mean post = c :: post' /\
    setAt (mkSummary (pre ++ old :: post) cs) (len pre) mean count
    = Some (mkSummary (bubble_left (rev pre) c post') cs') /\
    length cs' = length cs.
Proof.
  intros Hlen. unfold setAt. cbn [means counts].
  rewrite set_index_middle. cbn [mbind option_bind].
  destruct (split_at_index cs (len pre)) as (cpre & cold & cpost & -> & Hcpre).
  { unfold len. rewrite <- Hlen, length_app. simpl. lia. }
  rewrite <- Hcpre, set_index_middle. cbn [mbind option_bind]. rewrite Hcpre.
  unfold adjustRight.
  destruct (adjustRight_loop_bubble post pre mean (cpre ++ count :: cpost))
    as (cs1 & Hrun1 & Hlen1).
  { rewrite !length_app in *. simpl in *. lia. }
  rewrite Hrun1. cbn [mbind option_bind].
  assert (Hne : exists c post', bubble_right mean post = c :: post').
  { destruct post as [|b post]; cbn [bubble_right]; [eauto|].
    destruct (gtb mean b); eauto. }
  destruct Hne as (c & post' & Hbr). exists c, post'. rewrite Hbr.
  unfold adjustLeft.
  destruct (adjustLeft_loop_bubble (rev pre) post' c cs1) as (cs2 & Hrun2 & Hlen2).
  { rewrite rev_involutive, Hlen1, <- Hbr.
    rewrite !length_app, bubble_right_length in *. simpl in *. lia. }
  rewrite rev_involutive in Hrun2.
  replace (len (rev pre)) with (len pre) in Hrun2
    by (unfold len; now rewrite length_rev).
  exists cs2. rewrite Hrun2. repeat split.
  rewrite Hlen2, Hlen1, !length_app in *. simpl in *. lia.
Qed.

(** C7. On a summary whose means are sorted non-decreasing, [setAt] at a
    valid index with a mean that is a number (and any count) returns, and
    the means it leaves are sorted non-decreasing again; the length is
    unchanged. *)
Theorem setAt_restores_sorted (s : summary) (index : Z) (mean : float64) (count : Z) :
  length (means s) = length (counts s) ->
  sortedb (means s) = true ->
  0 <= index < Len s ->
  IsNaN mean = false ->
  exists s', setAt s index mean count = Some s' /\
             sortedb (means s') = true /\ Len s' = Len s.
Proof.
  intros Hlen Hs Hi Hm. destruct s as [ms cs]. cbn [means counts] in *.
  unfold Len in *. cbn [means] in *.
  destruct (split_at_index ms index Hi) as (pre & old & post & -> & <-).
  destruct (setAt_shape pre post old mean cs count Hlen)
    as (c & post' & cs' & Hbr & Hrun & Hlen').
  destruct (sorted_around pre post old Hs) as (Hpre & Hpost & Hn1 & Hn2 & Hle).
  pose proof (bubble_right_sorted mean post Hm Hn2 Hpost) as Hbs.
  rewrite Hbr in Hbs.
  eexists. split; [exact Hrun|]. cbn [means]. split.
  - apply bubble_left_sorted.
    + destruct post as [|b post]; cbn [bubble_right] in Hbr.
      * now inversion Hbr; subst.
      * apply no_nan_cons in Hn2 as [Hb _].
        destruct (gtb mean b); now inversion Hbr; subst.
    + now rewrite no_nan_rev.
    + now rewrite rev_involutive.
    + exact Hbs.
    + rewrite rev_involutive. intros a b Ha Hb.
      destruct post as [|b0 post]; cbn [bubble_right] in Hbr.
      * inversion Hbr; subst. discriminate.
      * destruct (gtb mean b0); inversion Hbr; subst.
        -- eapply leb_trans; [apply Hle; [eassumption|reflexivity]|].
           destruct (bubble_right mean post) as [|b' l']; [discriminate|].
           inversion Hb; subst b'. rewrite sortedb_cons in Hbs.
           now apply andb_true_iff in Hbs as [? _].
        -- now apply Hle.
  - unfold len. f_equal.
    rewrite bubble_left_length, length_rev, length_app.
    pose proof (bubble_right_length mean post) as Hl. rewrite Hbr in Hl.
    simpl in *. lia.
Qed.

Lemma setAt_restores_sorted_witness :
  exists s', setAt (mkSummary [of_Z 1; of_Z 2; of_Z 3] [1; 1; 1]) 0 (of_Z 5) 4
             = Some s' /\
             sortedb (means s') = true /\
             Len s' = Len (mkSummary [of_Z 1; of_Z 2; of_Z 3] [1; 1; 1]).
Proof.
  apply (setAt_restores_sorted
           (mkSummary [of_Z 1; of_Z 2; of_Z 3] [1; 1; 1]) 0 (of_Z 5) 4);
    vm_compute; try reflexivity. split; [discriminate|reflexivity].
Defined.

(** ** The concrete scenario *)

(** C6. From the empty summary, [Add(5.0, 1)], [Add(3.0, 2)], [Add(3.0, 1)]
    leave the means [3.0, 3.0, 5.0] with the counts [2, 1, 1]: the second
    3.0 went to the right of the first.  On that summary [HeadSum(2)] is
    3, [Floor(4.0)] is 1 and [FloorSum(2)] is index 1 with cumSum 2. *)
Theorem concrete_scenario :
  let s := mkSummary [of_Z 3; of_Z 3; of_Z 5] [2; 1; 1] in
  AddAll (newSummary 0) [(of_Z 5, 1); (of_Z 3, 2); (of_Z 3, 1)] = Some s /\
  HeadSum s 2 = Some (of_Z 3) /\
  Floor s (of_Z 4) = 1 /\
  FloorSum s (of_Z 2) = Some (1, of_Z 2).
Proof. vm_compute. repeat split. Qed.

(** ** Floor *)

(** C4, as amended. On a summary whose means are sorted non-decreasing
    and hold no NaN, and for [x] a number, [Floor(x)] is the index of the
    last centroid whose mean is strictly less than [x], and -1 when there
    is none: it is -1 or the index of a mean below [x], and every mean
    below [x] sits at an index that is not greater. *)
Theorem Floor_last_less (s : summary) (x : float64) :
  sortedb (means s) = true -> no_nan (means s) = true -> IsNaN x = false ->
  -1 <= Floor s x < Len s /\
  (Floor s x = -1 \/ exists m, Mean s (Floor s x) = Some m /\ ltb m x = true) /\
  (forall k m, Mean s k = Some m -> ltb m x = true -> k <= Floor s x).
Proof.
  intros Hs Hn Hx. unfold Floor, Len, Mean.
  rewrite (findIndex_scan s x Hs).
  destruct (first_index_spec (fun m => geb m x) (means s) 0) as (Hr & Hlt & Hat).
  set (r := first_index (fun m => geb m x) (means s) 0) in *.
  rewrite Z.sub_0_r in Hat.
  split; [lia|]. split.
  - destruct (Z.eq_dec r 0) as [->|Hne]; [left; reflexivity|right].
    destruct (at_index_in_range (means s) (r - 1) ltac:(lia)) as [m Hm].
    exists m. split; [assumption|].
    pose proof Hm as [_ Hm']%at_index_Some.
    apply geb_false_ltb; [eapply no_nan_lookup; eassumption|assumption|].
    apply (Hlt (Z.to_nat (r - 1)) m Hm'). lia.
  - intros k m Hm Hmx.
    destruct (Z_lt_dec k r) as [|Hge]; [lia|exfalso].
    pose proof (at_index_range _ _ _ Hm) as Hk.
    apply at_index_Some in Hm as [_ Hm].
    destruct (at_index_in_range (means s) r ltac:(lia)) as [mr Hmr].
    apply at_index_Some in Hmr as [_ Hmr].
    pose proof (Hat mr Hmr) as Hge'. simpl in Hge'.
    assert (Hkx : geb m x = true).
    { apply (sorted_geb_mono (means s) x Hs (Z.to_nat r) (Z.to_nat k) mr m);
        auto. lia. }
    rewrite (geb_true_not_ltb m x Hkx) in Hmx. discriminate.
Qed.

Lemma Floor_last_less_witness :
  let s := mkSummary [of_Z 3; of_Z 3; of_Z 5] [2; 1; 1] in
  -1 <= Floor s (of_Z 4) < Len s /\
  (Floor s (of_Z 4) = -1 \/
   exists m, Mean s (Floor s (of_Z 4)) = Some m /\ ltb m (of_Z 4) = true) /\
  (forall k m, Mean s k = Some m -> ltb m (of_Z 4) = true ->
               k <= Floor s (of_Z 4)).
Proof.
  apply (Floor_last_less (mkSummary [of_Z 3; of_Z 3; of_Z 5] [2; 1; 1]) (of_Z 4));
    vm_compute; reflexivity.
Defined.

(** C4 as stated fails when [x] is NaN: no mean is less than NaN, yet
    [Floor(NaN)] on a summary of one centroid is 0 and not -1. *)
Lemma Floor_NaN_counterexample :
  let s := mkSummary [of_Z 1] [1] in
  sortedb (means s) = true /\ no_nan (means s) = true /\
  (forall k m, Mean s k = Some m -> ltb m NaN = false) /\
  Floor s NaN = 0.
Proof.
  repeat split; try (vm_compute; reflexivity).
  intros k m _. now destruct m.
Qed.

(** ** HeadSum *)

Lemma sumUntilIndex_by4_step (s : list Z) (i cumSum : Z) :
  sumUntilIndex_by4 s i cumSum =
  if Z_le_dec 3 i then
    match at_index s i, at_index s (i - 1), at_index s (i - 2), at_index s (i - 3) with
    | Some a, Some b, Some c, Some d =>
        sumUntilIndex_by4 s (i - 4) (add64 (add64 (add64 (add64 cumSum a) b) c) d)
    | _, _, _, _ => None
    end
  else Some (i, cumSum).
Proof.
  funelim (sumUntilIndex_by4 s i cumSum); try clear Heqcall;
    repeat match goal with
           | H : ?x = _ |- context [?x] => rewrite H
           end; try reflexivity.
  all: repeat match goal with
              | |- context [match at_index ?l ?k with _ => _ end] =>
                  destruct (at_index l k)
              end; reflexivity.
Qed.

Lemma sumUntilIndex_by1_step (s : list Z) (i cumSum : Z) :
  sumUntilIndex_by1 s i cumSum =
  if Z_le_dec 0 i then
    match at_index s i with
    | Some a => sumUntilIndex_by1 s (i - 1) (add64 cumSum a)
    | None => None
    end
  else Some cumSum.
Proof.
  funelim (sumUntilIndex_by1 s i cumSum); try clear Heqcall;
    repeat match goal with
           | H : ?x = _ |- context [?x] => rewrite H
           end; reflexivity.
Qed.

Lemma uint64_mod_pos : 0 < uint64_mod.
Proof. reflexivity. Qed.

Lemma wrap64_range (z : Z) : 0 <= wrap64 z < uint64_mod.
Proof. apply Z.mod_pos_bound, uint64_mod_pos. Qed.

Lemma wrap64_small (z : Z) : 0 <= z < uint64_mod -> wrap64 z = z.
Proof. apply Z.mod_small. Qed.

Lemma wrap64_add_l (a b : Z) : wrap64 (wrap64 a + b) = wrap64 (a + b).
Proof. apply Zplus_mod_idemp_l. Qed.

Lemma add64_range (a b : Z) : 0 <= add64 a b < uint64_mod.
Proof. apply wrap64_range. Qed.

Lemma sumZ_app (l1 l2 : list Z) : sumZ (l1 ++ l2) = sumZ l1 + sumZ l2.
Proof. unfold sumZ. induction l1 as [|a l1 IH]; simpl; lia. Qed.

Lemma sumZ_take_S (l : list Z) (n : nat) (a : Z) :
  l !! n = Some a -> sumZ (take (S n) l) = sumZ (take n l) + a.
Proof.
  intros Ha. rewrite (take_S_r l n a Ha), sumZ_app. unfold sumZ. simpl. lia.
Qed.

Lemma sumZ_cons (c : Z) (l : list Z) : sumZ (c :: l) = c + sumZ l.
Proof. reflexivity. Qed.

Lemma sumZ_nonneg (l : list Z) : Forall (fun c => 0 <= c) l -> 0 <= sumZ l.
Proof.
  induction 1 as [|c l Hc _ IH]; [reflexivity|]. rewrite sumZ_cons. lia.
Qed.

Lemma sumZ_take_mono (l : list Z) (j k : nat) :
  Forall (fun c => 0 <= c) l -> (j <= k)%nat ->
  sumZ (take j l) <= sumZ (take k l).
Proof.
  intros Hl Hjk. replace k with (j + (k - j))%nat by lia.
  rewrite <- take_take_drop, sumZ_app.
  assert (0 <= sumZ (take (k - j) (drop j l))); [|lia].
  apply sumZ_nonneg. apply Forall_take, Forall_drop, Hl.
Qed.

Lemma sumZ_take_le (l : list Z) (k : nat) :
  Forall (fun c => 0 <= c) l -> sumZ (take k l) <= sumZ l.
Proof.
  intros Hl. rewrite <- (take_ge l (Nat.max k (length l))) at 2 by lia.
  apply sumZ_take_mono; [assumption|lia].
Qed.

(** The plain loop adds up the prefix modulo [2^64]. *)
Lemma fold_left_add64 (l : list Z) (acc : Z) :
  0 <= acc < uint64_mod -> fold_left add64 l acc = wrap64 (acc + sumZ l).
Proof.
  revert acc. induction l as [|a l IH]; intros acc Hacc; simpl.
  - unfold sumZ. simpl. rewrite Z.add_0_r. symmetry. now apply wrap64_small.
  - rewrite IH by apply add64_range. unfold add64.
    rewrite wrap64_add_l. f_equal. unfold sumZ. simpl. lia.
Qed.

Lemma plain_prefix_sum_wrap (cs : list Z) (idx : Z) :
  plain_prefix_sum cs idx = wrap64 (sumZ (take (Z.to_nat idx) cs)).
Proof.
  unfold plain_prefix_sum. rewrite fold_left_add64; [reflexivity|].
  pose proof uint64_mod_pos. lia.
Qed.

(** The one-by-one loop from [i] down to 0 adds the entries [0..i]. *)
Lemma sumUntilIndex_by1_spec (s : list Z) (i cumSum : Z) :
  0 <= cumSum < uint64_mod -> -1 <= i < len s ->
  sumUntilIndex_by1 s i cumSum
  = Some (wrap64 (cumSum + sumZ (take (Z.to_nat (i + 1)) s))).
Proof.
  remember (Z.to_nat (i + 1)) as n eqn:Hn. revert i cumSum Hn.
  induction n as [|n IH]; intros i cumSum Hn Hacc Hi;
    rewrite sumUntilIndex_by1_step.
  - destruct (Z_le_dec 0 i); [lia|].
    unfold sumZ. simpl. rewrite Z.add_0_r. now rewrite wrap64_small.
  - destruct (Z_le_dec 0 i); [|lia].
    destruct (at_index_in_range s i ltac:(lia)) as [a Ha]. rewrite Ha.
    rewrite (IH (i - 1)) by (try apply add64_range; lia).
    apply at_index_Some in Ha as [_ Ha].
    replace (Z.to_nat (i - 1 + 1)) with (Z.to_nat i) by lia.
    replace n with (Z.to_nat i) by lia.
    rewrite (sumZ_take_S s (Z.to_nat i) a Ha).
    unfold add64. rewrite wrap64_add_l. do 2 f_equal. lia.
Qed.

(** The unrolled loop hands over an index and a sum from which the
    entries not yet added are exactly those up to that index. *)
Lemma sumUntilIndex_by4_spec (s : list Z) (i cumSum : Z) :
  0 <= cumSum < uint64_mod -> -1 <= i < len s ->
  exists i' cumSum',
    sumUntilIndex_by4 s i cumSum = Some (i', cumSum') /\
    -1 <= i' <= i /\ 0 <= cumSum' < uint64_mod /\
    wrap64 (cumSum' + sumZ (take (Z.to_nat (i' + 1)) s))
    = wrap64 (cumSum + sumZ (take (Z.to_nat (i + 1)) s)).
Proof.
  remember (Z.to_nat (i + 1)) as n eqn:Hn. revert i cumSum Hn.
  induction n as [n IH] using lt_wf_ind; intros i cumSum Hn Hacc Hi.
  rewrite sumUntilIndex_by4_step.
  destruct (Z_le_dec 3 i) as [H3|H3].
  - destruct (at_index_in_range s i ltac:(lia)) as [a Ha].
    destruct (at_index_in_range s (i - 1) ltac:(lia)) as [b Hb].
    destruct (at_index_in_range s (i - 2) ltac:(lia)) as [c Hc].
    destruct (at_index_in_range s (i - 3) ltac:(lia)) as [d Hd].
    rewrite Ha, Hb, Hc, Hd.
    destruct (IH (Z.to_nat (i - 4 + 1)) ltac:(lia) (i - 4)
                (add64 (add64 (add64 (add64 cumSum a) b) c) d) eq_refl
                (add64_range _ _) ltac:(lia))
      as (i' & acc' & Hrun & Hi' & Hacc' & Hsum).
    exists i', acc'. split; [assumption|]. split; [lia|]. split; [assumption|].
    rewrite Hsum. clear IH Hrun Hsum. subst n.
    apply at_index_Some in Ha as [_ Ha]. apply at_index_Some in Hb as [_ Hb].
    apply at_index_Some in Hc as [_ Hc]. apply at_index_Some in Hd as [_ Hd].
    set (k := Z.to_nat (i - 3)) in *.
    replace (Z.to_nat (i - 2)) with (S k) in Hc by lia.
    replace (Z.to_nat (i - 1)) with (S (S k)) in Hb by lia.
    replace (Z.to_nat i) with (S (S (S k))) in Ha by lia.
    replace (Z.to_nat (i + 1)) with (S (S (S (S k)))) by lia.
    replace (Z.to_nat (i - 4 + 1)) with k by lia.
    rewrite (sumZ_take_S s _ a Ha), (sumZ_take_S s _ b Hb),
      (sumZ_take_S s _ c Hc), (sumZ_take_S s _ d Hd).
    unfold add64.
    repeat (rewrite <- ?Z.add_assoc; rewrite wrap64_add_l).
    f_equal. lia.
  - exists i, cumSum. subst n. repeat split; lia.
Qed.

Lemma sumUntilIndex_prefix (s : list Z) (idx : Z) :
  0 <= idx <= len s ->
  sumUntilIndex s idx = Some (plain_prefix_sum s idx).
Proof.
  intros Hidx. unfold sumUntilIndex.
  pose proof uint64_mod_pos as Hpos.
  destruct (sumUntilIndex_by4_spec s (idx - 1) 0 ltac:(lia) ltac:(lia))
    as (i' & acc' & Hrun & Hi' & Hacc' & Hsum).
  rewrite Hrun. cbn [mbind option_bind].
  rewrite sumUntilIndex_by1_spec by (try assumption; lia).
  rewrite Hsum, plain_prefix_sum_wrap.
  replace (idx - 1 + 1) with idx by lia. reflexivity.
Qed.

(** As long as the uint64 sum does not wrap around, the plain prefix sum
    is the cumulative weight as an integer. *)
Lemma plain_prefix_sum_weight (s : summary) (idx : Z) :
  Forall (fun c => 0 <= c) (counts s) -> weight_before s idx < uint64_mod ->
  plain_prefix_sum (counts s) idx = weight_before s idx.
Proof.
  intros Hcs Hlt. rewrite plain_prefix_sum_wrap. apply wrap64_small.
  split; [|exact Hlt]. apply sumZ_nonneg, Forall_take, Hcs.
Qed.

(** C8. For every index [idx] with [0 <= idx <= Len()], [HeadSum(idx)]
    returns, and its value is the plain prefix sum of the counts over
    the indices of [0, idx): the loop unrolled four times computes what the
    plain loop computes.  (Both add on uint64 and convert the sum to
    float64; while the sum stays below [2^64] it is the sum of those
    counts as integers.) *)
Theorem HeadSum_plain_prefix_sum (s : summary) (idx : Z) :
  length (means s) = length (counts s) ->
  0 <= idx <= Len s ->
  HeadSum s idx = Some (HeadSum_plain s idx) /\
  (Forall (fun c => 0 <= c) (counts s) -> weight_before s idx < uint64_mod ->
   HeadSum s idx = Some (of_Z (weight_before s idx))).
Proof.
  intros Hlen Hidx. unfold HeadSum, HeadSum_plain.
  rewrite sumUntilIndex_prefix by (unfold Len, len in *; lia).
  split; [reflexivity|].
  intros Hcs Hlt. now rewrite plain_prefix_sum_weight.
Qed.

Lemma HeadSum_plain_prefix_sum_witness :
  let s := mkSummary [of_Z 1; of_Z 2; of_Z 3; of_Z 4; of_Z 5; of_Z 6]
                     [1; 2; 3; 4; 5; 6] in
  HeadSum s 5 = Some (HeadSum_plain s 5) /\
  (Forall (fun c => 0 <= c) (counts s) -> weight_before s 5 < uint64_mod ->
   HeadSum s 5 = Some (of_Z (weight_before s 5))).
Proof.
  apply (HeadSum_plain_prefix_sum
           (mkSummary [of_Z 1; of_Z 2; of_Z 3; of_Z 4; of_Z 5; of_Z 6]
                      [1; 2; 3; 4; 5; 6]) 5);
    vm_compute; [reflexivity|split; discriminate].
Defined.

(** ** Integers that float64 holds exactly

    [FloorSum] accumulates the counts in float64.  Up to [2^53] every
    integer is a float64, and sums and differences that stay below that
    bound are computed without rounding. *)

Section ExactIntegers.

Lemma digits2_pos_size (p : positive) : digits2_pos p = Pos.size p.
Proof. induction p as [p IH|p IH|]; simpl; now rewrite ?IH. Qed.

Lemma size_bounds (p : positive) :
  2 ^ (Z.pos (Pos.size p) - 1) <= Z.pos p < 2 ^ Z.pos (Pos.size p).
Proof.
  pose proof (Pos.size_gt p) as Hgt. pose proof (Pos.size_le p) as Hle.
  apply Pos2Z.pos_lt_pos in Hgt. apply Pos2Z.pos_le_pos in Hle.
  rewrite Pos2Z.inj_pow in Hgt, Hle.
  change (Z.pos p~0) with (2 * Z.pos p) in Hle.
  split; [|exact Hgt].
  replace (Z.pos (Pos.size p)) with (Z.succ (Z.pos (Pos.size p) - 1)) in Hle by lia.
  rewrite Z.pow_succ_r in Hle by lia. lia.
Qed.

Lemma size_unique (p : positive) (d : Z) :
  2 ^ (d - 1) <= Z.pos p < 2 ^ d -> Z.pos (Pos.size p) = d.
Proof.
  intros [Hlo Hhi]. pose proof (size_bounds p) as [Hlo' Hhi'].
  assert (Hd : 0 < d).
  { destruct (Z_lt_dec 0 d); [assumption|].
    destruct (Z.eq_dec d 0) as [->|]; [simpl in Hhi; lia|].
    rewrite (Z.pow_neg_r 2 d) in Hhi by lia. lia. }
  destruct (Z.lt_trichotomy (Z.pos (Pos.size p)) d) as [Hlt|[Heq|Hgt]];
    [exfalso|assumption|exfalso].
  - assert (2 ^ Z.pos (Pos.size p) <= 2 ^ (d - 1))
      by (apply Z.pow_le_mono_r; lia). lia.
  - assert (2 ^ d <= 2 ^ (Z.pos (Pos.size p) - 1))
      by (apply Z.pow_le_mono_r; lia). lia.
Qed.

Lemma size_shift (M m : positive) (t : Z) :
  0 <= t -> Z.pos M = Z.pos m * 2 ^ t ->
  Z.pos (Pos.size M) = Z.pos (Pos.size m) + t.
Proof.
  intros Ht HM. apply size_unique. rewrite HM.
  pose proof (size_bounds m) as [Hlo Hhi].
  assert (Hpow : 0 < 2 ^ t) by (apply Z.pow_pos_nonneg; lia).
  replace (Z.pos (Pos.size m) + t - 1) with (Z.pos (Pos.size m) - 1 + t) by lia.
  rewrite !Z.pow_add_r by lia. split.
  - apply Z.mul_le_mono_nonneg_r; lia.
  - apply Z.mul_lt_mono_pos_r; lia.
Qed.

Lemma iter_xO_shift (m t : positive) :
  Z.pos (Pos.iter xO m t) = Z.pos m * 2 ^ Z.pos t.
Proof.
  induction t as [|t IH] using Pos.peano_ind.
  - simpl. lia.
  - rewrite Pos.iter_succ, Pos2Z.inj_xO, IH, Pos2Z.inj_succ.
    rewrite Z.pow_succ_r by lia. lia.
Qed.

Lemma iter_pos_Pos_iter {A} (f : A -> A) (p : positive) (x : A) :
  SpecFloat.iter_pos f p x = Pos.iter f x p.
Proof.
  revert x. induction p as [p IH|p IH|]; intros x; simpl.
  - now rewrite !IH, !Pos.iter_swap.
  - now rewrite !IH.
  - reflexivity.
Qed.

(** Shifting out zero bits loses nothing. *)
Lemma shr_exact (t M m : positive) :
  Z.pos M = Z.pos m * 2 ^ Z.pos t ->
  SpecFloat.iter_pos shr_1 t (Build_shr_record (Z.pos M) false false)
  = Build_shr_record (Z.pos m) false false.
Proof.
  rewrite iter_pos_Pos_iter. revert M m.
  induction t as [|t IH] using Pos.peano_ind; intros M m HM.
  - simpl. destruct M as [M|M|]; simpl in *; try lia.
    f_equal. lia.
  - rewrite Pos.iter_succ. rewrite (IH M (xO m)).
    + reflexivity.
    + rewrite HM, Pos2Z.inj_succ, Z.pow_succ_r by lia. lia.
Qed.

Lemma fexp_53 (e : Z) : -1074 <= e -> fexp prec emax (53 + e) = e.
Proof. unfold fexp, SpecFloat.emin, prec, emax. lia. Qed.

(** Rounding a mantissa whose low bits are zero only shifts them out. *)
Lemma binary_round_aux_shift (M m' : positive) (E t : Z) :
  0 <= t -> Z.pos M = Z.pos m' * 2 ^ t -> Z.pos (Pos.size m') = 53 ->
  -1074 <= E + t <= 971 ->
  binary_round_aux prec emax false (Z.pos M) E loc_Exact
  = S754_finite false m' (E + t).
Proof.
  intros Ht HM Hsize He. unfold binary_round_aux.
  assert (H1 : shr_fexp prec emax (Z.pos M) E loc_Exact
               = (Build_shr_record (Z.pos m') false false, E + t)).
  { unfold shr_fexp, shr_record_of_loc, Zdigits2.
    rewrite digits2_pos_size, (size_shift M m' t Ht HM), Hsize.
    replace (53 + t + E) with (53 + (E + t)) by lia.
    rewrite fexp_53 by lia.
    replace (E + t - E) with t by lia.
    unfold shr. destruct t as [|t|t]; [| |lia].
    - rewrite Z.pow_0_r, Z.mul_1_r in HM. rewrite HM, Z.add_0_r. reflexivity.
    - now rewrite (shr_exact t M m' HM). }
  rewrite H1. cbn [shr_m loc_of_shr_record round_nearest_even].
  assert (H2 : shr_fexp prec emax (Z.pos m') (E + t) loc_Exact
               = (Build_shr_record (Z.pos m') false false, E + t)).
  { unfold shr_fexp, shr_record_of_loc, Zdigits2.
    rewrite digits2_pos_size, Hsize, fexp_53 by lia.
    now rewrite Z.sub_diag. }
  rewrite H2. cbn [shr_m].
  replace (E + t <=? emax - prec) with true; [reflexivity|].
  symmetry. apply Z.leb_le. unfold emax, prec. lia.
Qed.

(** A mantissa and an exponent denote the float64 [m' * 2^e'] of 53
    digits when both have the same value; the values are compared after
    scaling by [2^c]. *)
Lemma binary_round_scaled (M m' : positive) (E e' c : Z) :
  Z.pos (Pos.size m') = 53 -> -1074 <= e' <= 971 ->
  0 <= E + c -> 0 <= e' + c ->
  Z.pos M * 2 ^ (E + c) = Z.pos m' * 2 ^ (e' + c) ->
  binary_round prec emax false M E = S754_finite false m' e'.
Proof.
  intros Hsize He HEc Hec Hval. unfold binary_round.
  assert (Hcases : (E <= e' /\ Z.pos M = Z.pos m' * 2 ^ (e' - E)) \/
                   (e' < E /\ Z.pos m' = Z.pos M * 2 ^ (E - e'))).
  { destruct (Z_le_dec E e') as [Hle|Hgt]; [left|right]; (split; [lia|]).
    - replace (e' + c) with (e' - E + (E + c)) in Hval by lia.
      rewrite (Z.pow_add_r 2 (e' - E) (E + c)), Z.mul_assoc in Hval by lia.
      apply Z.mul_reg_r in Hval; [assumption|].
      apply Z.pow_nonzero; lia.
    - replace (E + c) with (E - e' + (e' + c)) in Hval by lia.
      rewrite (Z.pow_add_r 2 (E - e') (e' + c)), Z.mul_assoc in Hval by lia.
      apply Z.mul_reg_r in Hval; [now symmetry|].
      apply Z.pow_nonzero; lia. }
  assert (Hd : Z.pos (digits2_pos M) + E = 53 + e').
  { rewrite digits2_pos_size. destruct Hcases as [[Hle HM]|[Hgt Hm]].
    - rewrite (size_shift M m' (e' - E)) by (auto; lia). lia.
    - pose proof (size_shift m' M (E - e') ltac:(lia) Hm). lia. }
  rewrite Hd, fexp_53 by lia.
  unfold shl_align. destruct (e' - E) as [|d|d] eqn:Hsub.
  - destruct Hcases as [[Hle HM]|[Hgt Hm]]; [|lia].
    replace e' with (E + 0) by lia.
    apply binary_round_aux_shift; [lia|exact HM|exact Hsize|lia].
  - destruct Hcases as [[Hle HM]|[Hgt Hm]]; [|lia].
    replace e' with (E + Z.pos d) by lia.
    apply binary_round_aux_shift; [lia|exact HM|exact Hsize|lia].
  - destruct Hcases as [[Hle HM]|[Hgt Hm]]; [lia|].
    replace e' with (e' + 0) at 2 by lia.
    apply binary_round_aux_shift; [lia| |exact Hsize|lia].
    rewrite iter_xO_shift, Z.pow_0_r, Z.mul_1_r, Hm. do 2 f_equal. lia.
Qed.

Lemma represents_exists (n : Z) :
  0 < n <= 2 ^ 53 -> exists m e, represents n m e.
Proof.
  intros Hn. destruct (Z.eq_dec n (2 ^ 53)) as [->|Hne].
  - exists (Z.to_pos (2 ^ 52)), 1. repeat split; vm_compute; congruence.
  - pose proof (Z.log2_spec n ltac:(lia)) as [Hlo Hhi].
    pose proof (Z.log2_nonneg n) as HL.
    assert (HL' : Z.log2 n < 53) by (apply Z.log2_lt_pow2; lia).
    set (L := Z.log2 n) in *.
    assert (Hp : 0 < 2 ^ (52 - L)) by (apply Z.pow_pos_nonneg; lia).
    exists (Z.to_pos (n * 2 ^ (52 - L))), (L - 52).
    assert (Hpos : Z.pos (Z.to_pos (n * 2 ^ (52 - L))) = n * 2 ^ (52 - L))
      by (apply Z2Pos.id; lia).
    repeat split; try lia.
    + apply size_unique. rewrite Hpos.
      replace (2 ^ (53 - 1)) with (2 ^ L * 2 ^ (52 - L))
        by (rewrite <- Z.pow_add_r by lia; f_equal; lia).
      replace (2 ^ 53) with (2 ^ Z.succ L * 2 ^ (52 - L))
        by (rewrite <- Z.pow_add_r by lia; f_equal; lia).
      split; [apply Z.mul_le_mono_nonneg_r|apply Z.mul_lt_mono_pos_r]; lia.
    + rewrite Hpos, <- Z.mul_assoc, <- Z.pow_add_r by lia.
      do 2 f_equal. lia.
Qed.

Lemma represents_pos (n : Z) (m : positive) (e : Z) : represents n m e -> 0 < n.
Proof.
  intros (_ & He & Hval).
  assert (0 < 2 ^ (e + 52)) by (apply Z.pow_pos_nonneg; lia).
  assert (0 < 2 ^ 52) by reflexivity. nia.
Qed.

Lemma of_Z_represents (n : Z) (m : positive) (e : Z) :
  represents n m e -> of_Z n = S754_finite false m e.
Proof.
  intros Hr. pose proof (represents_pos n m e Hr) as Hn.
  destruct Hr as (Hsize & He & Hval).
  destruct n as [|p|p]; try lia. unfold of_Z. cbn [binary_normalize].
  apply (binary_round_scaled p m 0 e 52); lia.
Qed.

Lemma of_Z_0 : of_Z 0 = zero.
Proof. reflexivity. Qed.

(** Every integer of [1, 2^53] is a finite positive float64. *)
Lemma of_Z_finite (n : Z) :
  0 < n <= 2 ^ 53 ->
  exists m e, represents n m e /\ of_Z n = S754_finite false m e.
Proof.
  intros Hn. destruct (represents_exists n Hn) as (m & e & Hr).
  exists m, e. split; [assumption|now apply of_Z_represents].
Qed.

Lemma shl_align_fst (m : positive) (e ez : Z) :
  ez <= e -> Z.pos (fst (shl_align m e ez)) = Z.pos m * 2 ^ (e - ez).
Proof.
  intros Hle. unfold shl_align. destruct (ez - e) as [|d|d] eqn:Hsub; cbn [fst].
  - replace (e - ez) with 0 by lia. lia.
  - lia.
  - rewrite iter_xO_shift. do 2 f_equal. lia.
Qed.

(** The common mantissa on which [SFadd] and [SFsub] work. *)
Lemma aligned_value (n : Z) (m : positive) (e ez : Z) :
  represents n m e -> -52 <= ez <= e ->
  Z.pos (fst (shl_align m e ez)) * 2 ^ (ez + 52) = n * 2 ^ 52.
Proof.
  intros (_ & He & Hval) Hez. rewrite shl_align_fst, Hval by lia.
  rewrite <- Z.mul_assoc, <- Z.pow_add_r by lia. do 2 f_equal. lia.
Qed.

(** Sums that stay below [2^53] are exact. *)
Lemma add_exact (a b : Z) :
  0 <= a -> 0 <= b -> a + b <= 2 ^ 53 ->
  add (of_Z a) (of_Z b) = of_Z (a + b).
Proof.
  intros Ha Hb Hab.
  destruct (Z.eq_dec a 0) as [->|Ha0].
  - rewrite Z.add_0_l, of_Z_0.
    destruct (Z.eq_dec b 0) as [->|Hb0]; [reflexivity|].
    destruct (of_Z_finite b ltac:(lia)) as (m & e & _ & ->). reflexivity.
  - destruct (of_Z_finite a ltac:(lia)) as (ma & ea & Hra & Ea).
    destruct (Z.eq_dec b 0) as [->|Hb0].
    + rewrite Z.add_0_r, of_Z_0, Ea. reflexivity.
    + destruct (of_Z_finite b ltac:(lia)) as (mb & eb & Hrb & Eb).
      destruct (of_Z_finite (a + b) ltac:(lia)) as (mc & ec & Hrc & Ec).
      rewrite Ea, Eb, Ec. unfold add, SFadd. cbn [cond_Zopp].
      pose proof Hra as (_ & Hea & _). pose proof Hrb as (_ & Heb & _).
      pose proof (aligned_value a ma ea (Z.min ea eb) Hra ltac:(lia)) as Va.
      pose proof (aligned_value b mb eb (Z.min ea eb) Hrb ltac:(lia)) as Vb.
      rewrite <- Pos2Z.inj_add. cbn [binary_normalize].
      destruct Hrc as (Hsize & Hec & Hval).
      apply (binary_round_scaled _ mc (Z.min ea eb) ec 52);
        [assumption|lia|lia|lia|].
      rewrite Pos2Z.inj_add, Z.mul_add_distr_r, Va, Vb, <- Hval. lia.
Qed.

(** So are the differences that undo such a sum. *)
Lemma sub_exact (a b : Z) :
  0 <= a -> 0 <= b -> a + b <= 2 ^ 53 ->
  sub (of_Z (a + b)) (of_Z b) = of_Z a.
Proof.
  intros Ha Hb Hab.
  destruct (Z.eq_dec b 0) as [->|Hb0].
  - rewrite Z.add_0_r, of_Z_0.
    destruct (Z.eq_dec a 0) as [->|Ha0]; [reflexivity|].
    destruct (of_Z_finite a ltac:(lia)) as (m & e & _ & ->). reflexivity.
  - destruct (of_Z_finite b ltac:(lia)) as (mb & eb & Hrb & Eb).
    destruct (of_Z_finite (a + b) ltac:(lia)) as (mc & ec & Hrc & Ec).
    rewrite Eb, Ec. unfold sub, SFsub. cbn [cond_Zopp].
    pose proof Hrb as (_ & Heb & _). pose proof Hrc as (_ & Hec & _).
    pose proof (aligned_value (a + b) mc ec (Z.min ec eb) Hrc ltac:(lia)) as Vc.
    pose proof (aligned_value b mb eb (Z.min ec eb) Hrb ltac:(lia)) as Vb.
    assert (Hp : 0 < 2 ^ (Z.min ec eb + 52)) by (apply Z.pow_pos_nonneg; lia).
    destruct (Z.eq_dec a 0) as [->|Ha0].
    + replace (Z.pos (fst (shl_align mc ec (Z.min ec eb)))
               - Z.pos (fst (shl_align mb eb (Z.min ec eb)))) with 0 by nia.
      reflexivity.
    + destruct (of_Z_finite a ltac:(lia)) as (ma & ea & Hra & Ea).
      rewrite Ea. destruct Hra as (Hsize & Hea & Hval).
      destruct (Z.pos (fst (shl_align mc ec (Z.min ec eb)))
                - Z.pos (fst (shl_align mb eb (Z.min ec eb))))
        as [|d|d] eqn:Hd; [nia| |nia].
      cbn [binary_normalize].
      apply (binary_round_scaled d ma (Z.min ec eb) ea 52);
        [assumption|lia|lia|lia|].
      rewrite <- Hd, Z.mul_sub_distr_r, Vc, Vb, <- Hval. lia.
Qed.

(** The conversion is monotone up to [2^53]. *)
Lemma leb_of_Z_mono (a b : Z) :
  0 <= a <= b -> b <= 2 ^ 53 -> leb (of_Z a) (of_Z b) = true.
Proof.
  intros Hab Hb.
  destruct (Z.eq_dec a 0) as [->|Ha0].
  - rewrite of_Z_0. destruct (Z.eq_dec b 0) as [->|Hb0]; [reflexivity|].
    destruct (of_Z_finite b ltac:(lia)) as (m & e & _ & ->). reflexivity.
  - destruct (of_Z_finite a ltac:(lia)) as (ma & ea & Hra & ->).
    destruct (of_Z_finite b ltac:(lia)) as (mb & eb & Hrb & ->).
    destruct Hra as (Hsa & Hea & Hva). destruct Hrb as (Hsb & Heb & Hvb).
    pose proof (size_bounds ma) as Hma. pose proof (size_bounds mb) as Hmb.
    rewrite Hsa in Hma. rewrite Hsb in Hmb.
    change (2 ^ (53 - 1)) with 4503599627370496 in *.
    change (2 ^ 53) with 9007199254740992 in *.
    change (2 ^ 52) with 4503599627370496 in *.
    unfold leb, SFleb, SFcompare.
    change (Pos.compare_cont Eq) with Pos.compare.
    destruct (Z.compare_spec ea eb) as [Heq|Hlt|Hgt]; [|reflexivity|exfalso].
    + subst eb.
      assert (Hp : 0 < 2 ^ (ea + 52)) by (apply Z.pow_pos_nonneg; lia).
      destruct (Pos.compare_spec ma mb) as [|?|Hgt]; try reflexivity.
      exfalso. apply Pos2Z.pos_lt_pos in Hgt. nia.
    + assert (Hp : 0 < 2 ^ (eb + 52)) by (apply Z.pow_pos_nonneg; lia).
      assert (Hpow : 2 * 2 ^ (eb + 52) <= 2 ^ (ea + 52)).
      { rewrite <- Z.pow_succ_r by lia. apply Z.pow_le_mono_r; lia. }
      nia.
Qed.

End ExactIntegers.

(** ** FloorSum *)

(** The loop returns the index it was given or one it went through. *)
Lemma FloorSum_loop_index (cs : list Z) (sum : float64) (i index : Z)
    (cumSum : float64) :
  (FloorSum_loop cs sum i index cumSum).1 = index \/
  i <= (FloorSum_loop cs sum i index cumSum).1 < i + len cs.
Proof.
  revert i index cumSum. induction cs as [|c cs IH]; intros i index cumSum.
  - left. reflexivity.
  - cbn [FloorSum_loop]. destruct (leb cumSum sum); [|left; reflexivity].
    right. rewrite len_cons. pose proof (len_nonneg cs).
    destruct (IH (i + 1) i (add cumSum (of_Z c))) as [->|H']; lia.
Qed.

(** C3 as stated fails for a negative [sum]: the first test [0 <= sum]
    already fails, and the summary of one centroid answers index -1. *)
Lemma FloorSum_negative_counterexample :
  let s := mkSummary [of_Z 1] [1] in
  0 < Len s /\ FloorSum s (of_Z (-1)) = Some (-1, zero).
Proof. vm_compute. split; reflexivity. Qed.

(** C3, as amended. [FloorSum] returns, the empty summary answers index
    -1 with cumSum 0, and for a [sum] that is not negative (and not NaN)
    the index -1 is returned only by the empty summary: when [Len() > 0]
    the index is a position of the summary. *)
Theorem FloorSum_index_nonempty (s : summary) (sum : float64) :
  length (means s) = length (counts s) ->
  exists index cumSum,
    FloorSum s sum = Some (index, cumSum) /\
    (Len s = 0 -> index = -1 /\ cumSum = zero) /\
    (leb zero sum = true -> 0 < Len s -> 0 <= index < Len s).
Proof.
  intros Hlen. unfold FloorSum, Len, len. rewrite Hlen.
  destruct (FloorSum_loop (counts s) sum 0 (-1) zero) as [index cumSum] eqn:Hrun.
  pose proof (FloorSum_loop_index (counts s) sum 0 (-1) zero) as Hidx.
  rewrite Hrun in Hidx. cbn [fst] in Hidx. unfold len in Hidx.
  assert (Hne : leb zero sum = true -> (0 < length (counts s))%nat ->
                0 <= index < Z.of_nat (length (counts s))).
  { intros Hsum Hpos. destruct (counts s) as [|c cs]; [simpl in Hpos; lia|].
    cbn [FloorSum_loop] in Hrun. rewrite Hsum in Hrun.
    pose proof (FloorSum_loop_index cs sum (0 + 1) 0 (add zero (of_Z c))) as H1.
    rewrite Hrun in H1. cbn [fst] in H1. unfold len in H1. simpl length. lia. }
  destruct (Z.eqb_spec index (-1)) as [->|Hn1].
  - exists (-1), cumSum. split; [reflexivity|]. split.
    + intros Hz. destruct (counts s); [|simpl in Hz; lia].
      simpl in Hrun. inversion Hrun. auto.
    + intros Hsum Hpos. apply Hne; [assumption|lia].
  - destruct (at_index_in_range (counts s) index) as [c Hc];
      [unfold len; lia|].
    rewrite Hc. cbn [mbind option_bind].
    exists index, (sub cumSum (of_Z c)). split; [reflexivity|]. split.
    + intros Hz. lia.
    + intros Hsum Hpos. apply Hne; [assumption|lia].
Qed.

Lemma FloorSum_index_nonempty_witness :
  exists index cumSum,
    FloorSum (mkSummary [of_Z 3; of_Z 5] [2; 1]) (of_Z 2) = Some (index, cumSum) /\
    (Len (mkSummary [of_Z 3; of_Z 5] [2; 1]) = 0 -> index = -1 /\ cumSum = zero) /\
    (leb zero (of_Z 2) = true -> 0 < Len (mkSummary [of_Z 3; of_Z 5] [2; 1]) ->
     0 <= index < Len (mkSummary [of_Z 3; of_Z 5] [2; 1])).
Proof.
  apply (FloorSum_index_nonempty (mkSummary [of_Z 3; of_Z 5] [2; 1]) (of_Z 2)).
  reflexivity.
Defined.

(** With a total of at most [2^53] the accumulator of the loop is the
    exact cumulative weight: the loop stops behind the last position [k]
    whose preceding weight is [<= sum]. *)
Lemma FloorSum_loop_exact (sum : float64) (cs : list Z) (i index P : Z) :
  Forall (fun c => 0 <= c) cs -> 0 <= P -> P + sumZ cs <= 2 ^ 53 ->
  leb (of_Z P) sum = true -> cs <> [] ->
  exists k : nat,
    (k < length cs)%nat /\
    FloorSum_loop cs sum i index (of_Z P)
    = (i + Z.of_nat k, of_Z (P + sumZ (take (S k) cs))) /\
    leb (of_Z (P + sumZ (take k cs))) sum = true /\
    ((S k < length cs)%nat ->
     leb (of_Z (P + sumZ (take (S k) cs))) sum = false).
Proof.
  revert i index P.
  induction cs as [|c cs IH]; intros i index P Hcs HP Hsum Hle Hne;
    [contradiction|].
  apply Forall_cons in Hcs as [Hc Hcs].
  pose proof (sumZ_nonneg cs Hcs) as Hnn. rewrite sumZ_cons in Hsum.
  cbn [FloorSum_loop]. rewrite Hle, (add_exact P c) by lia.
  destruct cs as [|c' cs'].
  - exists 0%nat. cbn [FloorSum_loop take sumZ foldr length].
    rewrite !Z.add_0_r. repeat split; try assumption; lia.
  - remember (c' :: cs') as t eqn:Et.
    destruct (leb (of_Z (P + c)) sum) eqn:Hle'.
    + destruct (IH (i + 1) i (P + c) Hcs ltac:(lia) ltac:(lia) Hle'
                  ltac:(subst t; discriminate))
        as (k & Hk & Hrun & Hpass & Hstop).
      exists (S k). rewrite Hrun, !firstn_cons, !sumZ_cons, !Z.add_assoc.
      repeat split.
      * simpl. lia.
      * f_equal. lia.
      * exact Hpass.
      * intros Hlt. apply Hstop. simpl in Hlt. lia.
    + exists 0%nat. subst t. cbn [FloorSum_loop]. rewrite Hle'.
      rewrite firstn_cons, !firstn_O. cbn [sumZ foldr]. rewrite !Z.add_0_r.
      repeat split; try assumption; [simpl; lia|intros _; assumption].
Qed.

(** C5, at the input where the code breaks it.  [FloorSum] is documented
    to return the [HeadSum] up to the index it found ([cumSum =
    HeadSum(FloorSum(x))]), and C5 says the same.  On the counts [1, 2^53]
    with [sum = 1] it does not: the loop adds [1 + 2^53] in float64, which
    rounds to [2^53]; taking the last count off again leaves [cumSum = 0]
    at [index = 1], while [HeadSum(1)], summed in uint64, is 1. *)
Lemma FloorSum_rounding_counterexample :
  let s := mkSummary [of_Z 1; of_Z 2] [1; 2 ^ 53] in
  leb zero (of_Z 1) = true /\
  FloorSum s (of_Z 1) = Some (1, zero) /\
  HeadSum s 1 = Some (of_Z 1) /\
  of_Z 1 <> zero.
Proof. vm_compute. repeat split; discriminate. Qed.

(** ** shuffle *)

Section ShuffleProperties.
Context {R : Type} `{RNG R}.

Lemma shuffle_loop_step (ms : list float64) (cs : list Z) (rng : R) (i : Z) :
  shuffle_loop ms cs rng i =
  if Z_lt_dec 1 i then
    match Swap ms cs i (fst (Intn rng (i + 1))) with
    | None => None
    | Some (ms', cs') => shuffle_loop ms' cs' (snd (Intn rng (i + 1))) (i - 1)
    end
  else Some (ms, cs, rng).
Proof.
  funelim (shuffle_loop ms cs rng i); try clear Heqcall;
    repeat match goal with
           | H : ?x = _ |- context [?x] => rewrite H
           end; reflexivity.
Qed.

Lemma perm_loop_step (m : list Z) (rng : R) (n i : Z) :
  perm_loop m rng n i =
  if Z_lt_dec i n then
    mj ← at_index m (fst (Intn rng (i + 1)));
    m1 ← set_index m i mj;
    m2 ← set_index m1 (fst (Intn rng (i + 1))) i;
    perm_loop m2 (snd (Intn rng (i + 1))) n (i + 1)
  else Some (m, rng).
Proof.
  funelim (perm_loop m rng n i); try clear Heqcall;
    repeat match goal with
           | H : ?x = _ |- context [?x] => rewrite H; cbn [mbind option_bind]
           end; reflexivity.
Qed.

(** C9, at the input where it fails. The loop of [shuffle] runs while
    [i > 1], so on a summary of two centroids it does not run at all:
    whatever the random-integer source draws, the two centroids stay as
    they are, and the order [b, a] is never reached. *)
Theorem shuffle_two_centroids_fixed (a b : float64) (c d : Z) (rng : R) :
  shuffle (mkSummary [a; b] [c; d]) rng = Some (mkSummary [a; b] [c; d], rng).
Proof.
  unfold shuffle, shuffle_slices. cbn [means counts].
  rewrite shuffle_loop_step. reflexivity.
Qed.

Lemma insert_cons_Permutation {A} (l : list A) (j : nat) (a b : A) :
  l !! j = Some b -> b :: <[j := a]> l ≡ₚ a :: l.
Proof.
  revert j. induction l as [|c l IH]; intros [|j] Hj; simpl in Hj; try discriminate.
  - inversion Hj; subst c. simpl. apply perm_swap.
  - simpl. rewrite (perm_swap c b), (IH j Hj). apply perm_swap.
Qed.

(** Exchanging two entries permutes the slice. *)
Lemma exchange_Permutation {A} (l : list A) (i j : nat) : exchange l i j ≡ₚ l.
Proof.
  unfold exchange. revert i j.
  induction l as [|c l IH]; intros i j; [now destruct i, j|].
  destruct i as [|i], j as [|j]; simpl.
  - reflexivity.
  - destruct (l !! j) as [b|] eqn:Hj; [|reflexivity].
    simpl. now apply insert_cons_Permutation.
  - destruct (l !! i) as [a|] eqn:Hi; [|reflexivity].
    simpl. now apply insert_cons_Permutation.
  - specialize (IH i j).
    destruct (l !! i), (l !! j); try reflexivity.
    simpl. now rewrite IH.
Qed.

(** Exchanging in both slices exchanges the pairs. *)
Lemma zip_exchange {A B} (l : list A) (k : list B) (i j : nat) :
  (i < length l)%nat -> (j < length l)%nat -> length l = length k ->
  zip (exchange l i j) (exchange k i j) = exchange (zip l k) i j.
Proof.
  intros Hi Hj Hlen. unfold exchange.
  destruct (lookup_lt_is_Some_2 l i Hi) as [a Ha].
  destruct (lookup_lt_is_Some_2 l j Hj) as [b Hb].
  destruct (lookup_lt_is_Some_2 k i ltac:(lia)) as [a' Ha'].
  destruct (lookup_lt_is_Some_2 k j ltac:(lia)) as [b' Hb'].
  rewrite Ha, Hb, Ha', Hb', !lookup_zip_with, Ha, Hb, Ha', Hb'. simpl.
  now rewrite !insert_zip_with.
Qed.

Lemma sumZ_Permutation (l l' : list Z) : l ≡ₚ l' -> sumZ l = sumZ l'.
Proof.
  induction 1 as [|x l l' _ IH|x y l|l l' l'' _ IH1 _ IH2];
    rewrite ?sumZ_cons; lia.
Qed.

Lemma GetTotalCount_wrap (s : summary) : GetTotalCount s = wrap64 (sumZ (counts s)).
Proof.
  unfold GetTotalCount. rewrite fold_left_add64; [reflexivity|].
  pose proof uint64_mod_pos. lia.
Qed.

(** Each round of the loop exchanges two pairs and nothing else. *)
Lemma shuffle_loop_Permutation (ms : list float64) (cs : list Z) (rng : R) (i : Z) :
  (forall (r : R) (k : Z), 0 < k -> 0 <= fst (Intn r k) < k) ->
  length ms = length cs -> i < len ms ->
  exists ms' cs' rng',
    shuffle_loop ms cs rng i = Some (ms', cs', rng') /\
    length ms' = length cs' /\ length ms' = length ms /\
    zip ms' cs' ≡ₚ zip ms cs.
Proof.
  intros Hrng. remember (Z.to_nat i) as n eqn:Hn. revert ms cs rng i Hn.
  induction n as [|n IH]; intros ms cs rng i Hn Hlen Hi;
    rewrite shuffle_loop_step.
  - destruct (Z_lt_dec 1 i); [lia|]. exists ms, cs, rng. auto.
  - destruct (Z_lt_dec 1 i) as [Hgt|Hle]; [|exists ms, cs, rng; auto].
    pose proof (Hrng rng (i + 1) ltac:(lia)) as Hj.
    set (j := fst (Intn rng (i + 1))) in *.
    unfold Swap. unfold len in Hi.
    rewrite !in_range_true by (unfold len; lia). cbn [andb].
    destruct (IH (exchange ms (Z.to_nat i) (Z.to_nat j))
                 (exchange cs (Z.to_nat i) (Z.to_nat j))
                 (snd (Intn rng (i + 1))) (i - 1))
      as (ms' & cs' & rng' & Hrun & Hl1 & Hl2 & Hperm).
    + lia.
    + now rewrite !exchange_length.
    + unfold len. rewrite exchange_length. lia.
    + exists ms', cs', rng'. split; [exact Hrun|]. split; [exact Hl1|].
      split; [now rewrite Hl2, exchange_length|].
      rewrite Hperm, zip_exchange by lia. apply exchange_Permutation.
Qed.

(** C10. For a random-integer source whose draws [Intn(k)] lie in
    [0, k), [shuffle] returns and leaves [Len()] and [GetTotalCount()]
    as they were; the pairs (mean, count) it leaves are a permutation of
    the pairs before, so every mean keeps its count. *)
Theorem shuffle_preserves_contents (s : summary) (rng : R) :
  length (means s) = length (counts s) ->
  (forall (r : R) (k : Z), 0 < k -> 0 <= fst (Intn r k) < k) ->
  exists s' rng',
    shuffle s rng = Some (s', rng') /\
    Len s' = Len s /\
    GetTotalCount s' = GetTotalCount s /\
    length (means s') = length (counts s') /\
    zip (means s') (counts s') ≡ₚ zip (means s) (counts s).
Proof.
  intros Hlen Hrng. unfold shuffle, shuffle_slices.
  destruct (shuffle_loop_Permutation (means s) (counts s) rng
              (len (means s) - 1) Hrng Hlen ltac:(lia))
    as (ms' & cs' & rng' & Hrun & Hl1 & Hl2 & Hperm).
  rewrite Hrun. cbn [mbind option_bind].
  exists (mkSummary ms' cs'), rng'. cbn [means counts].
  split; [reflexivity|]. split; [unfold Len, len; cbn [means]; lia|].
  split; [|split; assumption].
  rewrite !GetTotalCount_wrap. cbn [counts]. f_equal.
  apply sumZ_Permutation.
  rewrite <- (snd_zip ms' cs') by lia.
  rewrite <- (snd_zip (means s) (counts s)) by lia.
  now apply fmap_Permutation.
Qed.

(** The sibling [perm] starts at [i = 1] and does reach both orders of
    two indices: which one depends on the draw [Intn(2)]. *)
Lemma perm_two_orders (rng : R) :
  (fst (Intn rng 2) = 0 -> perm rng 2 = Some ([1; 0], snd (Intn rng 2))) /\
  (fst (Intn rng 2) = 1 -> perm rng 2 = Some ([0; 1], snd (Intn rng 2))).
Proof.
  unfold perm. split; intros Hj.
  all: rewrite perm_loop_step; change (1 + 1) with 2; rewrite Hj; simpl.
  all: rewrite perm_loop_step; reflexivity.
Qed.

End ShuffleProperties.

Lemma counter_rng_range (r k : Z) : 0 < k -> 0 <= fst (Intn r k) < k.
Proof. intros Hk. apply Z.mod_pos_bound, Hk. Qed.

Lemma shuffle_preserves_contents_witness :
  exists s' rng',
    shuffle (mkSummary [of_Z 1; of_Z 2; of_Z 3; of_Z 4] [5; 6; 7; 8]) 1
    = Some (s', rng') /\
    Len s' = Len (mkSummary [of_Z 1; of_Z 2; of_Z 3; of_Z 4] [5; 6; 7; 8]) /\
    GetTotalCount s'
    = GetTotalCount (mkSummary [of_Z 1; of_Z 2; of_Z 3; of_Z 4] [5; 6; 7; 8]) /\
    length (means s') = length (counts s') /\
    zip (means s') (counts s')
    ≡ₚ zip (means (mkSummary [of_Z 1; of_Z 2; of_Z 3; of_Z 4] [5; 6; 7; 8]))
           (counts (mkSummary [of_Z 1; of_Z 2; of_Z 3; of_Z 4] [5; 6; 7; 8])).
Proof.
  apply (shuffle_preserves_contents
           (mkSummary [of_Z 1; of_Z 2; of_Z 3; of_Z 4] [5; 6; 7; 8]) 1).
  - reflexivity.
  - exact counter_rng_range.
Defined.

(** * Further properties of the code *)

(** ** Add: what a successful call stores *)

(** Whatever the order of the means, a valid [Add] on a summary of two
    slices of one length puts the pair before position
    [findInsertionIndex]. *)
Lemma Add_inserts_at (s : summary) (key : float64) (value : Z) :
  IsNaN key = false -> value <> 0 ->
  length (means s) = length (counts s) ->
  let idx := Z.to_nat (findInsertionIndex s key) in
  Add s key value
  = (None, mkSummary (take idx (means s) ++ key :: drop idx (means s))
                     (take idx (counts s) ++ value :: drop idx (counts s))).
Proof.
  intros Hnan Hval Hlen idx. unfold Add.
  rewrite Hnan. destruct (Z.eqb_spec value 0) as [|_]; [contradiction|].
  pose proof (findInsertionIndex_range s key) as Hr. unfold Len, len in Hr.
  fold idx. rewrite !insert_copy_within by (subst idx; lia). reflexivity.
Qed.

Lemma zip_insert_at {A B} (l : list A) (k : list B) (n : nat) (a : A) (b : B) :
  length l = length k ->
  zip (take n l ++ a :: drop n l) (take n k ++ b :: drop n k)
  = take n (zip l k) ++ (a, b) :: drop n (zip l k).
Proof.
  intros Hlen. rewrite zip_with_app by (rewrite !length_take; lia).
  cbn [zip_with]. now rewrite zip_with_take, zip_with_drop.
Qed.

Lemma insert_at_Permutation {A} (l : list A) (n : nat) (a : A) :
  take n l ++ a :: drop n l ≡ₚ a :: l.
Proof.
  rewrite <- Permutation_middle. now rewrite take_drop.
Qed.

Lemma sumZ_insert_at (l : list Z) (n : nat) (a : Z) :
  sumZ (take n l ++ a :: drop n l) = sumZ l + a.
Proof.
  rewrite (sumZ_Permutation _ _ (insert_at_Permutation l n a)), sumZ_cons. lia.
Qed.

(** X1. A valid [Add] on a summary whose slices have one length, sorted
    or not, returns no error and stores exactly one more centroid: [Len]
    grows by one, [GetTotalCount] grows by the count (on uint64), and the
    (mean, count) pairs are the old pairs and the new one. *)
Theorem Add_stores_one_pair (s : summary) (key : float64) (value : Z) :
  IsNaN key = false -> value <> 0 ->
  length (means s) = length (counts s) ->
  fst (Add s key value) = None /\
  Len (snd (Add s key value)) = Len s + 1 /\
  length (means (snd (Add s key value)))
  = length (counts (snd (Add s key value))) /\
  GetTotalCount (snd (Add s key value)) = add64 (GetTotalCount s) value /\
  zip (means (snd (Add s key value))) (counts (snd (Add s key value)))
  ≡ₚ (key, value) :: zip (means s) (counts s).
Proof.
  intros Hnan Hval Hlen. rewrite (Add_inserts_at s key value Hnan Hval Hlen).
  cbn [fst snd means counts]. split; [reflexivity|].
  pose proof (findInsertionIndex_range s key) as Hr. unfold Len, len in *.
  cbn [means]. rewrite !length_app. cbn [length].
  rewrite !length_take, !length_drop.
  split; [lia|]. split; [lia|]. split.
  - rewrite !GetTotalCount_wrap. cbn [counts].
    rewrite sumZ_insert_at. unfold add64. now rewrite wrap64_add_l.
  - rewrite zip_insert_at by assumption. apply insert_at_Permutation.
Qed.

Lemma Add_stores_one_pair_witness :
  let s := mkSummary [of_Z 5; of_Z 3] [1; 2] in
  fst (Add s (of_Z 4) 7) = None /\
  Len (snd (Add s (of_Z 4) 7)) = Len s + 1 /\
  length (means (snd (Add s (of_Z 4) 7)))
  = length (counts (snd (Add s (of_Z 4) 7))) /\
  GetTotalCount (snd (Add s (of_Z 4) 7)) = add64 (GetTotalCount s) 7 /\
  zip (means (snd (Add s (of_Z 4) 7))) (counts (snd (Add s (of_Z 4) 7)))
  ≡ₚ (of_Z 4, 7) :: zip (means s) (counts s).
Proof.
  apply (Add_stores_one_pair (mkSummary [of_Z 5; of_Z 3] [1; 2]) (of_Z 4) 7);
    [reflexivity|discriminate|reflexivity].
Defined.

Lemma lookup_insert_at {A} (l : list A) (n k : nat) (a : A) :
  (n <= length l)%nat ->
  (take n l ++ a :: drop n l) !! k
  = if decide (k < n)%nat then l !! k
    else if decide (k = n) then Some a else l !! (k - 1)%nat.
Proof.
  intros Hn. destruct (decide (k < n)%nat) as [Hlt|Hge].
  - rewrite lookup_app_l by (rewrite length_take; lia).
    now apply lookup_take_lt.
  - rewrite lookup_app_r by (rewrite length_take; lia).
    rewrite length_take, Nat.min_l by lia.
    destruct (decide (k = n)) as [->|Hne].
    + now rewrite Nat.sub_diag.
    + replace (k - n)%nat with (S (k - n - 1)) by lia.
      change ((a :: drop n l) !! S (k - n - 1)%nat)
        with (drop n l !! (k - n - 1)%nat).
      rewrite lookup_drop. f_equal. lia.
Qed.

(** X2. After a valid [Add] the new mean and count are read back at
    position [findInsertionIndex]; the centroids before that position
    are where they were, and those from it on have moved up by one. *)
Theorem Add_lookup (s : summary) (key : float64) (value : Z) (k : Z) :
  IsNaN key = false -> value <> 0 ->
  length (means s) = length (counts s) ->
  let idx := findInsertionIndex s key in
  let s' := snd (Add s key value) in
  Mean s' idx = Some key /\ Count s' idx = Some value /\
  (k < idx -> Mean s' k = Mean s k /\ Count s' k = Count s k) /\
  (idx <= k -> Mean s' (k + 1) = Mean s k /\ Count s' (k + 1) = Count s k).
Proof.
  intros Hnan Hval Hlen idx s'. subst s'.
  rewrite (Add_inserts_at s key value Hnan Hval Hlen). fold idx.
  pose proof (findInsertionIndex_range s key) as Hr. fold idx in Hr.
  unfold Len, len in Hr. unfold Mean, Count, at_index. cbn [snd means counts].
  destruct (Z.ltb_spec idx 0) as [|_]; [lia|].
  rewrite !lookup_insert_at by lia.
  repeat split.
  all: repeat match goal with
              | |- context [Z.ltb ?a ?b] => destruct (Z.ltb_spec a b)
              end; try lia; try reflexivity.
  all: repeat case_decide; try lia; try reflexivity.
  all: f_equal; lia.
Qed.

Lemma Add_lookup_witness :
  let s := mkSummary [of_Z 3; of_Z 5] [2; 1] in
  let idx := findInsertionIndex s (of_Z 3) in
  let s' := snd (Add s (of_Z 3) 9) in
  Mean s' idx = Some (of_Z 3) /\ Count s' idx = Some 9 /\
  (1 < idx -> Mean s' 1 = Mean s 1 /\ Count s' 1 = Count s 1) /\
  (idx <= 1 -> Mean s' (1 + 1) = Mean s 1 /\ Count s' (1 + 1) = Count s 1).
Proof.
  apply (Add_lookup (mkSummary [of_Z 3; of_Z 5] [2; 1]) (of_Z 3) 9 1);
    [reflexivity|discriminate|reflexivity].
Defined.

(** X3. Insertion is to the right of equal means: on a summary that is
    sorted and holds no NaN, after a valid [Add] every mean before the new
    centroid is [<=] the new mean and every mean behind it is strictly
    greater. *)
Theorem Add_right_biased (s : summary) (key : float64) (value : Z) (k : Z)
    (m : float64) :
  summary_ok s -> IsNaN key = false -> value <> 0 ->
  Mean (snd (Add s key value)) k = Some m ->
  (k < findInsertionIndex s key -> leb m key = true) /\
  (findInsertionIndex s key < k -> gtb m key = true).
Proof.
  intros [Hlen Hn Hs] Hnan Hval.
  rewrite (Add_inserts_at s key value Hnan Hval Hlen).
  pose proof (findInsertionIndex_range s key) as Hr. unfold Len, len in Hr.
  rewrite (findInsertionIndex_scan s key Hs) in *.
  destruct (first_index_spec (fun a => gtb a key) (means s) 0)
    as (_ & Hbefore & Hat).
  set (idx := first_index (fun a => gtb a key) (means s) 0) in *.
  rewrite Z.sub_0_r in Hat.
  unfold Mean. cbn [snd means]. intros [Hk Hm]%at_index_Some.
  rewrite lookup_insert_at in Hm by lia. split; intros Hlt.
  - destruct (decide (Z.to_nat k < Z.to_nat idx)%nat); [|lia].
    apply gtb_false_leb; [eapply no_nan_lookup; eassumption|assumption|].
    apply (Hbefore (Z.to_nat k) m Hm). lia.
  - destruct (decide (Z.to_nat k < Z.to_nat idx)%nat); [lia|].
    destruct (decide (Z.to_nat k = Z.to_nat idx)); [lia|].
    destruct (lookup_lt_is_Some_2 (means s) (Z.to_nat idx)) as [a Ha].
    { apply lookup_lt_Some in Hm. lia. }
    apply (sorted_gtb_mono (means s) key Hs (Z.to_nat idx) (Z.to_nat k - 1) a m);
      [lia|assumption|assumption|]. apply (Hat a Ha).
Qed.

Lemma Add_right_biased_witness :
  let s := mkSummary [of_Z 3; of_Z 5] [2; 1] in
  (0 < findInsertionIndex s (of_Z 3) -> leb (of_Z 3) (of_Z 3) = true) /\
  (findInsertionIndex s (of_Z 3) < 0 -> gtb (of_Z 3) (of_Z 3) = true).
Proof.
  apply (Add_right_biased (mkSummary [of_Z 3; of_Z 5] [2; 1]) (of_Z 3) 9 0 (of_Z 3));
    [split; reflexivity|reflexivity|discriminate|reflexivity].
Defined.

(** ** Add: a whole sequence of calls *)

Lemma AddAll_pairs (ops : list (float64 * Z)) (s : summary) :
  summary_ok s -> forallb valid_add ops = true ->
  exists s', AddAll s ops = Some s' /\ summary_ok s' /\
             zip (means s') (counts s') ≡ₚ ops ++ zip (means s) (counts s).
Proof.
  revert s. induction ops as [|[key value] ops IH]; intros s Hok Hv.
  - exists s. repeat split; auto; apply Hok.
  - cbn [forallb] in Hv. apply andb_true_iff in Hv as [Hv Hvs].
    destruct (Add_ok s key value Hok Hv) as (s1 & HA & Hok1).
    unfold valid_add in Hv. cbn [fst snd] in Hv.
    apply andb_true_iff in Hv as [Hk Hc].
    apply negb_true_iff in Hk. apply Z.ltb_lt in Hc.
    pose proof (Add_inserts_at s key value Hk ltac:(lia) (ok_length s Hok)) as HA'.
    rewrite HA in HA'. injection HA' as ->.
    destruct (IH _ Hok1 Hvs) as (s' & Hrun & Hok' & Hperm).
    exists s'. cbn [AddAll]. rewrite HA. split; [exact Hrun|]. split; [exact Hok'|].
    rewrite Hperm. cbn [means counts].
    rewrite zip_insert_at by apply Hok.
    rewrite insert_at_Permutation. cbn [app].
    now rewrite Permutation_middle.
Qed.

(** X4. A sequence of valid [Add] calls on the empty summary loses and
    invents nothing: all calls succeed, and the summary holds exactly the
    (mean, count) pairs that were added, each mean with its own count; so
    [Len] is the number of calls and [GetTotalCount] the sum of the counts
    on uint64. *)
Theorem AddAll_holds_what_was_added (cap : Z) (ops : list (float64 * Z)) :
  forallb valid_add ops = true ->
  exists s, AddAll (newSummary cap) ops = Some s /\
            zip (means s) (counts s) ≡ₚ ops /\
            Len s = len ops /\
            GetTotalCount s = wrap64 (sumZ (ops.*2)).
Proof.
  intros Hv.
  destruct (AddAll_pairs ops (newSummary cap) (newSummary_ok cap) Hv)
    as (s & Hrun & Hok & Hperm).
  cbn [newSummary means counts zip_with] in Hperm. rewrite app_nil_r in Hperm.
  exists s. split; [exact Hrun|]. split; [exact Hperm|].
  pose proof (ok_length s Hok) as Hlen. split.
  - unfold Len, len. f_equal.
    rewrite <- (Permutation_length Hperm), length_zip_with. lia.
  - rewrite GetTotalCount_wrap. f_equal. apply sumZ_Permutation.
    rewrite <- (snd_zip (means s) (counts s)) by lia.
    now apply fmap_Permutation.
Qed.

Lemma AddAll_holds_what_was_added_witness :
  exists s, AddAll (newSummary 4) [(of_Z 5, 1); (of_Z 3, 2); (of_Z 3, 1)] = Some s /\
            zip (means s) (counts s) ≡ₚ [(of_Z 5, 1); (of_Z 3, 2); (of_Z 3, 1)] /\
            Len s = len [(of_Z 5, 1); (of_Z 3, 2); (of_Z 3, 1)] /\
            GetTotalCount s
            = wrap64 (sumZ ([(of_Z 5, 1); (of_Z 3, 2); (of_Z 3, 1)].*2)).
Proof.
  apply (AddAll_holds_what_was_added 4 [(of_Z 5, 1); (of_Z 3, 2); (of_Z 3, 1)]).
  reflexivity.
Defined.

(** ** The two search strategies *)

(** X5. On a sorted slice the binary search that both searches use from
    250 entries on finds the index that their linear scan finds: the
    threshold changes the cost of [findInsertionIndex] and [findIndex],
    not their result. *)
Theorem search_strategies_agree (l : list float64) (x : float64) :
  sortedb l = true ->
  Search (len l) (probe gtb l x) = scan_gt l x 0 /\
  Search (len l) (probe geb l x) = scan_ge l x 0.
Proof.
  intros Hs. split.
  - rewrite scan_gt_first_index.
    apply (Search_first_index (fun m => gtb m x)). now apply sorted_gtb_mono.
  - rewrite scan_ge_first_index.
    apply (Search_first_index (fun m => geb m x)). now apply sorted_geb_mono.
Qed.

Lemma search_strategies_agree_witness :
  Search (len [of_Z 1; of_Z 3; of_Z 3; of_Z 7]) (probe gtb [of_Z 1; of_Z 3; of_Z 3; of_Z 7] (of_Z 3))
  = scan_gt [of_Z 1; of_Z 3; of_Z 3; of_Z 7] (of_Z 3) 0 /\
  Search (len [of_Z 1; of_Z 3; of_Z 3; of_Z 7]) (probe geb [of_Z 1; of_Z 3; of_Z 3; of_Z 7] (of_Z 3))
  = scan_ge [of_Z 1; of_Z 3; of_Z 3; of_Z 7] (of_Z 3) 0.
Proof.
  apply (search_strategies_agree [of_Z 1; of_Z 3; of_Z 3; of_Z 7] (of_Z 3)).
  reflexivity.
Defined.

(** ** Floor *)

Lemma first_index_mono (p q : float64 -> bool) (l : list float64) (i : Z) :
  (forall a, q a = true -> p a = true) ->
  first_index p l i <= first_index q l i.
Proof.
  intros Hpq. revert i. induction l as [|a l IH]; intros i; simpl; [lia|].
  destruct (q a) eqn:Hq.
  - rewrite (Hpq a Hq). lia.
  - destruct (p a); [|apply IH].
    pose proof (first_index_spec q l (i + 1)) as (Hr & _). lia.
Qed.

(** A search for a predicate that never holds runs to the end. *)
Lemma Search_never (n : Z) (f : Z -> bool) :
  0 <= n -> (forall k, 0 <= k < n -> f k = false) -> Search n f = n.
Proof.
  intros Hn Hf. unfold Search.
  pose proof (Search_loop_range f 0 n Hn) as Hr.
  destruct (Search_loop_spec f 0 n 0 n) as (_ & Hhi); [lia|intros; lia..| |].
  - intros a b Hab Hb Hfa. rewrite Hf in Hfa by lia. discriminate.
  - destruct (Z.eq_dec (Search_loop f 0 n) n) as [|Hne]; [assumption|].
    specialize (Hhi (Search_loop f 0 n) ltac:(lia)).
    rewrite Hf in Hhi by lia. discriminate.
Qed.

Lemma findIndex_range (s : summary) (x : float64) :
  0 <= findIndex s x <= Len s.
Proof.
  unfold findIndex, Len. destruct (len (means s) <? 250).
  - rewrite scan_ge_first_index.
    pose proof (first_index_spec (fun m => geb m x) (means s) 0) as (Hr & _). lia.
  - apply Search_loop_range, len_nonneg.
Qed.

(** X6. [Floor] needs no precondition to stay in range: on every summary,
    sorted or not, and for every [x], NaN included, the index it returns
    lies in [-1, Len() - 1]. *)
Theorem Floor_range (s : summary) (x : float64) : -1 <= Floor s x < Len s.
Proof. unfold Floor. pose proof (findIndex_range s x). lia. Qed.

(** X7. No mean compares [>=] to NaN, so both strategies of [findIndex]
    run to the end: [Floor(NaN)] is [Len() - 1] on every summary. *)
Theorem Floor_of_NaN (s : summary) : Floor s NaN = Len s - 1.
Proof.
  unfold Floor, findIndex, Len. f_equal.
  assert (Hge : forall m, geb m NaN = false) by (intros m; now destruct m).
  destruct (len (means s) <? 250).
  - rewrite scan_ge_first_index.
    pose proof (first_index_spec (fun m => geb m NaN) (means s) 0)
      as (Hr & _ & Hat).
    destruct (Z.eq_dec (first_index (fun m => geb m NaN) (means s) 0)
                       (len (means s))) as [|Hne]; [assumption|].
    destruct (at_index_in_range (means s)
                (first_index (fun m => geb m NaN) (means s) 0) ltac:(lia))
      as [m Hm].
    apply at_index_Some in Hm as [_ Hm]. rewrite Z.sub_0_r in Hat.
    specialize (Hat m Hm). simpl in Hat. rewrite Hge in Hat. discriminate.
  - apply Search_never; [apply len_nonneg|].
    intros k Hk. unfold probe. destruct (at_index (means s) k); auto.
Qed.

(** X8. On a sorted summary [Floor] is monotone: [x <= y] gives
    [Floor(x) <= Floor(y)]. *)
Theorem Floor_monotone (s : summary) (x y : float64) :
  sortedb (means s) = true -> leb x y = true -> Floor s x <= Floor s y.
Proof.
  intros Hs Hxy. unfold Floor. rewrite !findIndex_scan by assumption.
  assert (first_index (fun m => geb m x) (means s) 0
          <= first_index (fun m => geb m y) (means s) 0); [|lia].
  apply first_index_mono. intros a Ha. unfold geb in *.
  exact (leb_trans x y a Hxy Ha).
Qed.

Lemma Floor_monotone_witness :
  Floor (mkSummary [of_Z 3; of_Z 3; of_Z 5] [2; 1; 1]) (of_Z 3)
  <= Floor (mkSummary [of_Z 3; of_Z 3; of_Z 5] [2; 1; 1]) (of_Z 6).
Proof.
  apply (Floor_monotone (mkSummary [of_Z 3; of_Z 3; of_Z 5] [2; 1; 1])
           (of_Z 3) (of_Z 6)); reflexivity.
Defined.

Lemma feqb_geb_gtb (a b : float64) :
  feqb a b = true <-> geb a b = true /\ gtb a b = false.
Proof.
  unfold feqb, geb, gtb, SFeqb, SFleb, SFltb, SFcompare.
  change (Pos.compare_cont Eq) with Pos.compare.
  destruct a as [sa|sa| |sa ma ea], b as [sb|sb| |sb mb eb];
    try destruct sa; try destruct sb;
    try (split; [intros ?; split|intros [? ?]]; congruence).
  all: destruct (Z.compare_spec ea eb), (Z.compare_spec eb ea); try lia;
    destruct (Pos.compare_spec ma mb), (Pos.compare_spec mb ma); try lia;
    simpl; split; try (intros [? ?]); try split; congruence.
Qed.

(** X9. On a sorted summary the centroids strictly between [Floor(x)]
    and the insertion index of [x] are exactly those whose mean equals
    [x]: [Floor] stops before the run of equal means, [Add] inserts behind
    it. *)
Theorem equal_means_run (s : summary) (x : float64) (k : Z) (m : float64) :
  sortedb (means s) = true -> Mean s k = Some m ->
  (Floor s x < k < findInsertionIndex s x <-> feqb m x = true).
Proof.
  intros Hs Hm. unfold Floor.
  rewrite findIndex_scan, findInsertionIndex_scan by assumption.
  destruct (first_index_spec (fun a => geb a x) (means s) 0) as (Hr1 & Hb1 & Ha1).
  destruct (first_index_spec (fun a => gtb a x) (means s) 0) as (Hr2 & Hb2 & Ha2).
  set (fi := first_index (fun a => geb a x) (means s) 0) in *.
  set (ii := first_index (fun a => gtb a x) (means s) 0) in *.
  rewrite Z.sub_0_r in Ha1, Ha2.
  pose proof (at_index_range _ _ _ Hm) as Hk.
  apply at_index_Some in Hm as [_ Hm].
  rewrite feqb_geb_gtb. split.
  - intros Hin. split.
    + destruct (at_index_in_range (means s) fi ltac:(lia)) as [a Ha].
      apply at_index_Some in Ha as [_ Ha].
      apply (sorted_geb_mono (means s) x Hs (Z.to_nat fi) (Z.to_nat k) a m);
        [lia|assumption|assumption|]. apply (Ha1 a Ha).
    + apply (Hb2 (Z.to_nat k) m Hm). lia.
  - intros [Hge Hgt]. split.
    + destruct (Z_lt_dec (fi - 1) k) as [|Hle]; [assumption|exfalso].
      rewrite (Hb1 (Z.to_nat k) m Hm) in Hge by lia. discriminate.
    + destruct (Z_lt_dec k ii) as [|Hle]; [assumption|exfalso].
      destruct (at_index_in_range (means s) ii ltac:(lia)) as [a Ha].
      apply at_index_Some in Ha as [_ Ha].
      rewrite (sorted_gtb_mono (means s) x Hs (Z.to_nat ii) (Z.to_nat k) a m)
        in Hgt; [discriminate|lia|assumption|assumption|]. apply (Ha2 a Ha).
Qed.

Lemma equal_means_run_witness :
  let s := mkSummary [of_Z 1; of_Z 3; of_Z 3; of_Z 5] [1; 2; 1; 1] in
  Floor s (of_Z 3) < 2 < findInsertionIndex s (of_Z 3)
  <-> feqb (of_Z 3) (of_Z 3) = true.
Proof.
  apply (equal_means_run (mkSummary [of_Z 1; of_Z 3; of_Z 3; of_Z 5] [1; 2; 1; 1])
           (of_Z 3) 2 (of_Z 3)); reflexivity.
Defined.

(** ** HeadSum *)

(** X10. [HeadSum] over the whole summary is [GetTotalCount]: the
    unrolled loop run up to [Len()] and the plain loop of [GetTotalCount]
    add up to the same uint64. *)
Theorem HeadSum_of_Len (s : summary) :
  length (means s) = length (counts s) ->
  HeadSum s (Len s) = Some (of_Z (GetTotalCount s)).
Proof.
  intros Hlen. unfold HeadSum, Len, len. rewrite Hlen.
  rewrite sumUntilIndex_prefix by (unfold len; lia).
  unfold plain_prefix_sum, GetTotalCount.
  now rewrite Nat2Z.id, firstn_all.
Qed.

Lemma HeadSum_of_Len_witness :
  HeadSum (mkSummary [of_Z 3; of_Z 3; of_Z 5] [2; 1; 1])
          (Len (mkSummary [of_Z 3; of_Z 3; of_Z 5] [2; 1; 1]))
  = Some (of_Z (GetTotalCount (mkSummary [of_Z 3; of_Z 3; of_Z 5] [2; 1; 1]))).
Proof.
  apply (HeadSum_of_Len (mkSummary [of_Z 3; of_Z 3; of_Z 5] [2; 1; 1])).
  reflexivity.
Defined.

(** X11. [HeadSum] does not check its index.  For an [int] index other
    than [math.MinInt64] (where [idx - 1] would wrap), an index past the
    end of [counts] is the only one that panics: every index up to
    [len(counts)] returns, and the indices [<= 0] return 0. *)
Theorem HeadSum_index_bounds (s : summary) (idx : Z) :
  in_int idx -> in_int (idx - 1) ->
  (HeadSum s idx = None <-> len (counts s) < idx) /\
  (idx <= 0 -> HeadSum s idx = Some zero).
Proof.
  intros _ _.
  pose proof (len_nonneg (counts s)) as Hn. unfold HeadSum.
  assert (Hlow : idx <= 0 -> sumUntilIndex (counts s) idx = Some 0).
  { intros Hidx. unfold sumUntilIndex. rewrite sumUntilIndex_by4_step.
    destruct (Z_le_dec 3 (idx - 1)); [lia|]. cbn [mbind option_bind].
    rewrite sumUntilIndex_by1_step.
    destruct (Z_le_dec 0 (idx - 1)); [lia|reflexivity]. }
  split; [split|].
  - intros Hnone. destruct (Z_lt_dec (len (counts s)) idx) as [|Hle]; [assumption|].
    exfalso. destruct (Z_le_dec idx 0) as [Hneg|Hpos].
    + rewrite (Hlow Hneg) in Hnone. discriminate.
    + rewrite sumUntilIndex_prefix in Hnone by lia. discriminate.
  - intros Hgt.
    assert (Hoob : at_index (counts s) (idx - 1) = None).
    { unfold at_index. destruct (Z.ltb_spec (idx - 1) 0); [reflexivity|].
      apply lookup_ge_None. unfold len in Hgt. lia. }
    unfold sumUntilIndex. rewrite sumUntilIndex_by4_step.
    destruct (Z_le_dec 3 (idx - 1)).
    + rewrite Hoob. reflexivity.
    + cbn [mbind option_bind]. rewrite sumUntilIndex_by1_step.
      destruct (Z_le_dec 0 (idx - 1)); [|lia]. rewrite Hoob. reflexivity.
  - intros Hidx. rewrite (Hlow Hidx). reflexivity.
Qed.

Lemma HeadSum_index_bounds_witness :
  (HeadSum (mkSummary [of_Z 3; of_Z 3; of_Z 5] [2; 1; 1]) 4 = None
   <-> len (counts (mkSummary [of_Z 3; of_Z 3; of_Z 5] [2; 1; 1])) < 4) /\
  (4 <= 0 -> HeadSum (mkSummary [of_Z 3; of_Z 3; of_Z 5] [2; 1; 1]) 4 = Some zero).
Proof.
  apply (HeadSum_index_bounds (mkSummary [of_Z 3; of_Z 3; of_Z 5] [2; 1; 1]) 4);
    unfold in_int, MinInt64, MaxInt64; lia.
Defined.

(** X12. While the counts add up to at most [2^53], [HeadSum] is
    non-decreasing in its index. *)
Theorem HeadSum_monotone (s : summary) (i j : Z) :
  Forall (fun c => 0 <= c) (counts s) -> sumZ (counts s) <= 2 ^ 53 ->
  0 <= i <= j -> j <= len (counts s) ->
  exists a b, HeadSum s i = Some a /\ HeadSum s j = Some b /\ leb a b = true.
Proof.
  intros Hcs Htot Hij Hj. unfold HeadSum.
  rewrite !sumUntilIndex_prefix by lia.
  exists (of_Z (plain_prefix_sum (counts s) i)),
         (of_Z (plain_prefix_sum (counts s) j)).
  split; [reflexivity|]. split; [reflexivity|].
  pose proof (sumZ_take_le (counts s) (Z.to_nat j) Hcs) as H1.
  pose proof (sumZ_take_le (counts s) (Z.to_nat i) Hcs) as H2.
  pose proof (sumZ_take_mono (counts s) (Z.to_nat i) (Z.to_nat j) Hcs ltac:(lia)) as H3.
  pose proof (sumZ_nonneg (take (Z.to_nat i) (counts s)) (Forall_take _ _ _ Hcs)) as H4.
  assert (Hb : 2 ^ 53 < uint64_mod) by reflexivity.
  rewrite !plain_prefix_sum_weight by (unfold weight_before; auto; lia).
  apply leb_of_Z_mono; unfold weight_before; lia.
Qed.

Lemma HeadSum_monotone_witness :
  exists a b,
    HeadSum (mkSummary [of_Z 3; of_Z 3; of_Z 5] [2; 1; 1]) 1 = Some a /\
    HeadSum (mkSummary [of_Z 3; of_Z 3; of_Z 5] [2; 1; 1]) 3 = Some b /\
    leb a b = true.
Proof.
  apply (HeadSum_monotone (mkSummary [of_Z 3; of_Z 3; of_Z 5] [2; 1; 1]) 1 3).
  - repeat constructor; simpl; lia.
  - vm_compute. discriminate.
  - lia.
  - vm_compute. discriminate.
Defined.

(** ** FloorSum *)

(** X13. For a [sum] that is negative or NaN the first test of the loop
    fails: [FloorSum] answers index -1 and cumSum 0 on every summary,
    without looking at a count. *)
Theorem FloorSum_negative_sum (s : summary) (sum : float64) :
  leb zero sum = false -> FloorSum s sum = Some (-1, zero).
Proof.
  intros Hsum. unfold FloorSum.
  destruct (counts s) as [|c cs]; cbn [FloorSum_loop]; [reflexivity|].
  rewrite Hsum. reflexivity.
Qed.

Lemma FloorSum_negative_sum_witness :
  FloorSum (mkSummary [of_Z 3; of_Z 5] [2; 1]) (of_Z (-4)) = Some (-1, zero).
Proof.
  apply (FloorSum_negative_sum (mkSummary [of_Z 3; of_Z 5] [2; 1]) (of_Z (-4))).
  reflexivity.
Defined.

(** X14. While the counts add up to at most [2^53], a [sum] that is at
    least the total count selects the last centroid: on a summary that is
    not empty the index is [Len() - 1] and cumSum is the weight before
    it. *)
Theorem FloorSum_total_selects_last (s : summary) (sum : float64) :
  length (means s) = length (counts s) ->
  Forall (fun c => 0 <= c) (counts s) -> sumZ (counts s) <= 2 ^ 53 ->
  0 < Len s -> leb (of_Z (sumZ (counts s))) sum = true ->
  FloorSum s sum
  = Some (Len s - 1, of_Z (weight_before s (Len s - 1))).
Proof.
  intros Hlen Hcs Htot Hpos Hsum. unfold Len, len, weight_before in *.
  rewrite Hlen in *.
  pose proof (sumZ_nonneg _ Hcs) as Hnn.
  assert (Hz : leb (of_Z 0) sum = true).
  { apply (leb_trans _ (of_Z (sumZ (counts s)))); [|assumption].
    apply leb_of_Z_mono; lia. }
  destruct (FloorSum_loop_exact sum (counts s) 0 (-1) 0 Hcs ltac:(lia)
              ltac:(lia) Hz ltac:(intros E; rewrite E in Hpos; simpl in Hpos; lia))
    as (k & Hk & Hrun & _ & Hstop).
  rewrite !Z.add_0_l in *.
  assert (Hlast : S k = length (counts s)).
  { destruct (decide (S k < length (counts s))%nat) as [Hlt|]; [exfalso|lia].
    specialize (Hstop Hlt).
    pose proof (sumZ_take_le (counts s) (S k) Hcs).
    pose proof (sumZ_nonneg (take (S k) (counts s)) (Forall_take _ _ _ Hcs)).
    assert (Hm : leb (of_Z (sumZ (take (S k) (counts s))))
                     (of_Z (sumZ (counts s))) = true)
      by (apply leb_of_Z_mono; lia).
    rewrite (leb_trans _ _ _ Hm Hsum) in Hstop. discriminate. }
  destruct (lookup_lt_is_Some_2 (counts s) k Hk) as [ck Hck].
  assert (Hck0 : 0 <= ck).
  { rewrite Forall_forall in Hcs. apply Hcs.
    eapply list_elem_of_lookup_2. eassumption. }
  pose proof (sumZ_take_le (counts s) (S k) Hcs) as HSk.
  pose proof (sumZ_nonneg (take k (counts s)) (Forall_take _ _ _ Hcs)) as Hk0.
  unfold FloorSum. change zero with (of_Z 0). rewrite Hrun.
  destruct (Z.eqb_spec (Z.of_nat k) (-1)); [lia|].
  rewrite at_index_nat, Hck. cbn [mbind option_bind].
  rewrite (sumZ_take_S _ _ _ Hck), sub_exact; [|lia..|].
  - replace (Z.to_nat (Z.of_nat (length (counts s)) - 1)) with k by lia.
    do 2 f_equal. lia.
  - rewrite <- (sumZ_take_S _ _ _ Hck). lia.
Qed.

Lemma FloorSum_total_selects_last_witness :
  FloorSum (mkSummary [of_Z 3; of_Z 3; of_Z 5] [2; 1; 1]) (of_Z 9)
  = Some (Len (mkSummary [of_Z 3; of_Z 3; of_Z 5] [2; 1; 1]) - 1,
          of_Z (weight_before (mkSummary [of_Z 3; of_Z 3; of_Z 5] [2; 1; 1])
                  (Len (mkSummary [of_Z 3; of_Z 3; of_Z 5] [2; 1; 1]) - 1))).
Proof.
  apply (FloorSum_total_selects_last
           (mkSummary [of_Z 3; of_Z 3; of_Z 5] [2; 1; 1]) (of_Z 9)).
  - reflexivity.
  - repeat constructor; simpl; lia.
  - vm_compute. discriminate.
  - reflexivity.
  - reflexivity.
Defined.

(** ** setAt *)

Lemma zip_exchange_summary (s : summary) (i j : Z) :
  length (means s) = length (counts s) ->
  0 <= i < len (means s) -> 0 <= j < len (means s) ->
  zip (means (exchange_summary s i j)) (counts (exchange_summary s i j))
  ≡ₚ zip (means s) (counts s).
Proof.
  intros Hlen Hi Hj. unfold exchange_summary, len in *. cbn [means counts].
  rewrite zip_exchange by lia. apply exchange_Permutation.
Qed.

(** From a position behind the first one, [adjustRight] returns and only
    reorders the pairs. *)
Lemma adjustRight_loop_pairs (s : summary) (i : Z) :
  length (means s) = length (counts s) -> 1 <= i ->
  exists s', adjustRight_loop s i = Some s' /\
             length (means s') = length (counts s') /\
             length (means s') = length (means s) /\
             zip (means s') (counts s') ≡ₚ zip (means s) (counts s).
Proof.
  remember (Z.to_nat (len (means s) - i)) as n eqn:Hn. revert s i Hn.
  induction n as [|n IH]; intros s i Hn Hlen Hi; rewrite adjustRight_loop_step.
  - destruct (Z_lt_dec i (len (means s))); [lia|]. exists s. auto.
  - destruct (Z_lt_dec i (len (means s))) as [Hlt|]; [|exists s; auto].
    unfold mean_gt.
    destruct (at_index_in_range (means s) (i - 1) ltac:(lia)) as [a ->].
    destruct (at_index_in_range (means s) i ltac:(lia)) as [b ->].
    cbn [mbind option_bind]. destruct (gtb a b); [|exists s; auto].
    rewrite !in_range_true by (unfold len in *; lia). cbn [andb].
    destruct (IH (exchange_summary s (i - 1) i) (i + 1)) as (s' & Hrun & Hl1 & Hl2 & Hp).
    + unfold exchange_summary, len in *. cbn [means]. rewrite exchange_length. lia.
    + unfold exchange_summary. cbn [means counts]. now rewrite !exchange_length.
    + lia.
    + exists s'. split; [exact Hrun|]. split; [exact Hl1|]. split.
      * rewrite Hl2. unfold exchange_summary. cbn [means]. apply exchange_length.
      * rewrite Hp. apply zip_exchange_summary; [assumption|lia..].
Qed.

(** From a position before the last one, so does [adjustLeft]. *)
Lemma adjustLeft_loop_pairs (s : summary) (i : Z) :
  length (means s) = length (counts s) -> i + 1 < len (means s) ->
  exists s', adjustLeft_loop s i = Some s' /\
             length (means s') = length (counts s') /\
             length (means s') = length (means s) /\
             zip (means s') (counts s') ≡ₚ zip (means s) (counts s).
Proof.
  remember (Z.to_nat (i + 1)) as n eqn:Hn. revert s i Hn.
  induction n as [|n IH]; intros s i Hn Hlen Hi; rewrite adjustLeft_loop_step.
  - destruct (Z_le_dec 0 i); [lia|]. exists s. auto.
  - destruct (Z_le_dec 0 i) as [Hle|]; [|exists s; auto].
    unfold mean_gt.
    destruct (at_index_in_range (means s) i ltac:(lia)) as [a ->].
    destruct (at_index_in_range (means s) (i + 1) ltac:(lia)) as [b ->].
    cbn [mbind option_bind]. destruct (gtb a b); [|exists s; auto].
    rewrite !in_range_true by (unfold len in *; lia). cbn [andb].
    destruct (IH (exchange_summary s i (i + 1)) (i - 1)) as (s' & Hrun & Hl1 & Hl2 & Hp).
    + lia.
    + unfold exchange_summary. cbn [means counts]. now rewrite !exchange_length.
    + unfold exchange_summary, len in *. cbn [means]. rewrite exchange_length. lia.
    + exists s'. split; [exact Hrun|]. split; [exact Hl1|]. split.
      * rewrite Hl2. unfold exchange_summary. cbn [means]. apply exchange_length.
      * rewrite Hp. apply zip_exchange_summary; [assumption|lia..].
Qed.

(** X15. [setAt] at a valid index returns, whatever the means and the
    new mean are (sorted or not, NaN or not), and only overwrites one
    centroid: the pairs it leaves are the old pairs with the pair at
    [index] replaced by the new one, in some order. *)
Theorem setAt_replaces_one_pair (s : summary) (index : Z) (mean : float64)
    (count : Z) :
  length (means s) = length (counts s) -> 0 <= index < Len s ->
  exists s', setAt s index mean count = Some s' /\
             length (means s') = length (counts s') /\
             Len s' = Len s /\
             zip (means s') (counts s')
             ≡ₚ <[Z.to_nat index := (mean, count)]> (zip (means s) (counts s)).
Proof.
  intros Hlen Hi. unfold Len, len in *. unfold setAt, set_index.
  destruct (at_index_in_range (means s) index ltac:(unfold len; lia)) as [a ->].
  destruct (at_index_in_range (counts s) index ltac:(unfold len; lia)) as [c ->].
  cbn [mbind option_bind]. unfold adjustRight.
  destruct (adjustRight_loop_pairs
              (mkSummary (<[Z.to_nat index := mean]> (means s))
                         (<[Z.to_nat index := count]> (counts s))) (index + 1))
    as (s1 & Hrun1 & Hl1 & Hm1 & Hp1).
  { cbn [means counts]. now rewrite !length_insert. }
  { lia. }
  rewrite Hrun1. cbn [mbind option_bind]. unfold adjustLeft.
  cbn [means counts] in Hm1, Hp1. rewrite length_insert in Hm1.
  destruct (adjustLeft_loop_pairs s1 (index - 1) Hl1 ltac:(unfold len; lia))
    as (s2 & Hrun2 & Hl2 & Hm2 & Hp2).
  exists s2. split; [exact Hrun2|]. split; [exact Hl2|]. split; [lia|].
  rewrite Hp2, Hp1. now rewrite insert_zip_with.
Qed.

Lemma setAt_replaces_one_pair_witness :
  let s := mkSummary [of_Z 1; of_Z 2; of_Z 3] [1; 1; 1] in
  exists s', setAt s 0 (of_Z 5) 4 = Some s' /\
             length (means s') = length (counts s') /\
             Len s' = Len s /\
             zip (means s') (counts s')
             ≡ₚ <[Z.to_nat 0 := (of_Z 5, 4)]> (zip (means s) (counts s)).
Proof.
  apply (setAt_replaces_one_pair (mkSummary [of_Z 1; of_Z 2; of_Z 3] [1; 1; 1])
           0 (of_Z 5) 4); [reflexivity|split; [lia|reflexivity]].
Defined.

(** When neither neighbour is out of order with the new mean, both loops
    stop at their first test. *)
Lemma setAt_stays (s : summary) (index : Z) (mean : float64) (count : Z) :
  length (means s) = length (counts s) -> 0 <= index < Len s ->
  (forall b, Mean s (index + 1) = Some b -> gtb mean b = false) ->
  (forall a, Mean s (index - 1) = Some a -> gtb a mean = false) ->
  setAt s index mean count
  = Some (mkSummary (<[Z.to_nat index := mean]> (means s))
                    (<[Z.to_nat index := count]> (counts s))).
Proof.
  intros Hlen Hi Hright Hleft. unfold Len, len, Mean in *. unfold setAt, set_index.
  destruct (at_index_in_range (means s) index ltac:(unfold len; lia)) as [a0 ->].
  destruct (at_index_in_range (counts s) index ltac:(unfold len; lia)) as [c0 ->].
  cbn [mbind option_bind].
  assert (Hself : at_index (<[Z.to_nat index := mean]> (means s)) index = Some mean).
  { apply at_index_Some. split; [lia|]. apply list_lookup_insert_eq. lia. }
  assert (Hother : forall k, k <> index ->
            at_index (<[Z.to_nat index := mean]> (means s)) k = at_index (means s) k).
  { intros k Hk. unfold at_index. destruct (Z.ltb_spec k 0); [reflexivity|].
    apply list_lookup_insert_ne. lia. }
  unfold adjustRight. rewrite adjustRight_loop_step. cbn [means counts].
  replace (index + 1 - 1) with index by lia.
  assert (Hr : (if Z_lt_dec (index + 1) (len (<[Z.to_nat index := mean]> (means s)))
                then match mean_gt (mkSummary (<[Z.to_nat index := mean]> (means s))
                                      (<[Z.to_nat index := count]> (counts s)))
                             index (index + 1) with
                     | Some true => None
                     | Some false => Some tt
                     | None => None
                     end
                else Some tt) = Some tt).
  { destruct (Z_lt_dec _ _) as [Hlt|]; [|reflexivity].
    unfold len in Hlt. rewrite length_insert in Hlt.
    unfold mean_gt. cbn [means]. rewrite Hself, Hother by lia.
    destruct (at_index_in_range (means s) (index + 1) ltac:(unfold len; lia))
      as [b Hb]. rewrite Hb. cbn [mbind option_bind].
    now rewrite (Hright b Hb). }
  destruct (Z_lt_dec _ _) as [Hlt|].
  - destruct (mean_gt _ index (index + 1)) as [[|]|]; try discriminate.
    cbn [mbind option_bind]. unfold adjustLeft. rewrite adjustLeft_loop_step.
    destruct (Z_le_dec 0 (index - 1)) as [Hle|]; [|reflexivity].
    unfold mean_gt. cbn [means]. replace (index - 1 + 1) with index by lia.
    rewrite Hself, Hother by lia.
    destruct (at_index_in_range (means s) (index - 1) ltac:(unfold len; lia))
      as [a Ha]. rewrite Ha. cbn [mbind option_bind].
    now rewrite (Hleft a Ha).
  - cbn [mbind option_bind]. unfold adjustLeft. rewrite adjustLeft_loop_step.
    destruct (Z_le_dec 0 (index - 1)) as [Hle|]; [|reflexivity].
    unfold mean_gt. cbn [means]. replace (index - 1 + 1) with index by lia.
    rewrite Hself, Hother by lia.
    destruct (at_index_in_range (means s) (index - 1) ltac:(unfold len; lia))
      as [a Ha]. rewrite Ha. cbn [mbind option_bind].
    now rewrite (Hleft a Ha).
Qed.

(** X16. [setAt] moves nothing when the new mean fits between its
    neighbours: if it is not greater than the mean behind it and the mean
    before it is not greater than it, the centroid at [index] is
    overwritten in place and every other centroid stays where it was. *)
Theorem setAt_in_place (s : summary) (index : Z) (mean : float64) (count : Z) :
  length (means s) = length (counts s) -> 0 <= index < Len s ->
  (forall b, Mean s (index + 1) = Some b -> gtb mean b = false) ->
  (forall a, Mean s (index - 1) = Some a -> gtb a mean = false) ->
  exists s', setAt s index mean count = Some s' /\
             Mean s' index = Some mean /\ Count s' index = Some count /\
             forall k, k <> index ->
                       Mean s' k = Mean s k /\ Count s' k = Count s k.
Proof.
  intros Hlen Hi Hright Hleft.
  rewrite (setAt_stays s index mean count Hlen Hi Hright Hleft).
  eexists. split; [reflexivity|]. unfold Len, len, Mean, Count in *.
  cbn [means counts]. repeat split.
  - apply at_index_Some. split; [lia|]. apply list_lookup_insert_eq. lia.
  - apply at_index_Some. split; [lia|]. apply list_lookup_insert_eq. lia.
  - unfold at_index. destruct (Z.ltb_spec k 0); [reflexivity|].
    apply list_lookup_insert_ne. lia.
  - unfold at_index. destruct (Z.ltb_spec k 0); [reflexivity|].
    apply list_lookup_insert_ne. lia.
Qed.

Lemma setAt_in_place_witness :
  let s := mkSummary [of_Z 1; of_Z 4; of_Z 9] [1; 1; 1] in
  exists s', setAt s 1 (of_Z 6) 3 = Some s' /\
             Mean s' 1 = Some (of_Z 6) /\ Count s' 1 = Some 3 /\
             forall k, k <> 1 -> Mean s' k = Mean s k /\ Count s' k = Count s k.
Proof.
  apply (setAt_in_place (mkSummary [of_Z 1; of_Z 4; of_Z 9] [1; 1; 1]) 1 (of_Z 6) 3).
  - reflexivity.
  - split; [lia|reflexivity].
  - intros b Hb. vm_compute in Hb. injection Hb as <-. reflexivity.
  - intros a Ha. vm_compute in Ha. injection Ha as <-. reflexivity.
Defined.

(** X17. [setAt] does not validate the mean: a NaN is never greater and
    nothing is greater than it, so at a valid index a NaN mean is stored
    where it is put and stays there, on every summary. *)
Theorem setAt_stores_NaN (s : summary) (index : Z) (count : Z) :
  length (means s) = length (counts s) -> 0 <= index < Len s ->
  exists s', setAt s index NaN count = Some s' /\
             Mean s' index = Some NaN /\ no_nan (means s') = false.
Proof.
  intros Hlen Hi.
  rewrite (setAt_stays s index NaN count Hlen Hi);
    [|intros b _; now destruct b|intros a _; now destruct a].
  eexists. split; [reflexivity|]. unfold Len, len, Mean in *. cbn [means].
  assert (Hat : <[Z.to_nat index := NaN]> (means s) !! Z.to_nat index = Some NaN)
    by (apply list_lookup_insert_eq; lia).
  split; [apply at_index_Some; split; [lia|exact Hat]|].
  destruct (no_nan _) eqn:Hn; [|reflexivity].
  pose proof (no_nan_lookup _ _ _ Hn Hat). discriminate.
Qed.

Lemma setAt_stores_NaN_witness :
  exists s', setAt (mkSummary [of_Z 1; of_Z 4] [1; 1]) 0 NaN 2 = Some s' /\
             Mean s' 0 = Some NaN /\ no_nan (means s') = false.
Proof.
  apply (setAt_stores_NaN (mkSummary [of_Z 1; of_Z 4] [1; 1]) 0 2);
    [reflexivity|split; [lia|reflexivity]].
Defined.

(** ** Swap and Less *)

Lemma lookup_exchange {A} (l : list A) (i j k : nat) (a b : A) :
  l !! i = Some a -> l !! j = Some b ->
  exchange l i j !! k
  = if decide (k = j) then Some a else if decide (k = i) then Some b else l !! k.
Proof.
  intros Ha Hb. unfold exchange. rewrite Ha, Hb.
  pose proof (lookup_lt_Some _ _ _ Ha). pose proof (lookup_lt_Some _ _ _ Hb).
  destruct (decide (k = j)) as [->|Hkj].
  - apply list_lookup_insert_eq. now rewrite length_insert.
  - rewrite list_lookup_insert_ne by congruence.
    destruct (decide (k = i)) as [->|Hki].
    + now apply list_lookup_insert_eq.
    + now rewrite list_lookup_insert_ne by congruence.
Qed.

Lemma exchange_involutive {A} (l : list A) (i j : nat) :
  (i < length l)%nat -> (j < length l)%nat ->
  exchange (exchange l i j) i j = l.
Proof.
  intros Hi Hj.
  destruct (lookup_lt_is_Some_2 l i Hi) as [a Ha].
  destruct (lookup_lt_is_Some_2 l j Hj) as [b Hb].
  assert (Ha' : exchange l i j !! i = Some (if decide (i = j) then a else b)).
  { rewrite (lookup_exchange l i j i a b Ha Hb).
    destruct (decide (i = j)); [reflexivity|].
    destruct (decide (i = i)); [reflexivity|congruence]. }
  assert (Hb' : exchange l i j !! j = Some a).
  { rewrite (lookup_exchange l i j j a b Ha Hb).
    destruct (decide (j = j)); [reflexivity|congruence]. }
  apply list_eq. intros k.
  rewrite (lookup_exchange _ i j k _ _ Ha' Hb').
  destruct (decide (k = j)) as [->|Hkj].
  - destruct (decide (i = j)) as [->|]; congruence.
  - destruct (decide (k = i)) as [->|Hki]; [congruence|].
    rewrite (lookup_exchange l i j k a b Ha Hb).
    destruct (decide (k = j)); [congruence|].
    destruct (decide (k = i)); [congruence|reflexivity].
Qed.

(** X18. [Swap] is its own inverse: a swap that returns, done again on
    what it left, returns and restores both slices. *)
Theorem Swap_twice (ms ms' : list float64) (cs cs' : list Z) (i j : Z) :
  Swap ms cs i j = Some (ms', cs') -> Swap ms' cs' i j = Some (ms, cs).
Proof.
  unfold Swap, in_range, len.
  destruct (_ && _) eqn:Hin; [|discriminate]. intros Heq.
  injection Heq as <- <-. rewrite !exchange_length, Hin.
  repeat (apply andb_true_iff in Hin as [Hin ?]).
  rewrite !exchange_involutive by lia. reflexivity.
Qed.

Lemma Swap_twice_witness :
  Swap [of_Z 3; of_Z 1; of_Z 2] [7; 8; 9] 0 2
  = Some ([of_Z 2; of_Z 1; of_Z 3], [9; 8; 7]).
Proof.
  apply (Swap_twice [of_Z 2; of_Z 1; of_Z 3] [of_Z 3; of_Z 1; of_Z 2]
           [9; 8; 7] [7; 8; 9] 0 2).
  reflexivity.
Defined.

(** X19. On a sorted summary [Less] agrees with the order of the
    positions: [Less(i, j)] holds only if [i < j]. *)
Theorem Less_sorted_positions (s : summary) (i j : Z) :
  sortedb (means s) = true -> Less s i j = Some true -> i < j.
Proof.
  intros Hs. unfold Less.
  destruct (at_index (means s) i) as [a|] eqn:Ha; [|discriminate].
  destruct (at_index (means s) j) as [b|] eqn:Hb; [|discriminate].
  cbn [mbind option_bind]. intros Hlt. injection Hlt as Hlt.
  apply at_index_Some in Ha as [Hi Ha]. apply at_index_Some in Hb as [Hj Hb].
  change (gtb b a = true) in Hlt.
  pose proof (gtb_true_not_leb b a Hlt) as Hnle.
  destruct (Z_lt_dec i j) as [|Hge]; [assumption|exfalso].
  destruct (Z.eq_dec i j) as [->|Hne].
  - assert (a = b) by congruence. subst b.
    rewrite (gtb_true_leb a a Hlt) in Hnle. discriminate.
  - rewrite (sortedb_lookup_le (means s) (Z.to_nat j) (Z.to_nat i) b a Hs)
      in Hnle; [discriminate|lia|assumption|assumption].
Qed.

Lemma Less_sorted_positions_witness : 0 < 2.
Proof.
  apply (Less_sorted_positions (mkSummary [of_Z 3; of_Z 3; of_Z 5] [2; 1; 1]) 0 2);
    reflexivity.
Defined.

(** ** perm, ForEach and Perm *)

Section Traversal.
Context {R : Type} `{RNG R}.
Hypothesis Intn_range : forall (r : R) (k : Z), 0 < k -> 0 <= fst (Intn r k) < k.

(** The invariant of the loop of [perm]: the entries filled so far are
    the indices below [i] in some order, the others are still 0. *)
Lemma perm_loop_Permutation (k : nat) (p : list Z) (rng : R) :
  (1 <= length p)%nat -> p ≡ₚ seqZ 0 (len p) ->
  exists m' rng',
    perm_loop (p ++ replicate k 0) rng (len p + Z.of_nat k) (len p)
    = Some (m', rng') /\
    m' ≡ₚ seqZ 0 (len p + Z.of_nat k).
Proof.
  revert p rng. induction k as [|k IH]; intros p rng Hp Hperm;
    rewrite perm_loop_step.
  - destruct (Z_lt_dec _ _); [lia|]. exists (p ++ []), rng.
    split; [reflexivity|]. now rewrite app_nil_r, Z.add_0_r.
  - destruct (Z_lt_dec _ _); [|lia].
    pose proof (Intn_range rng (len p + 1) ltac:(unfold len; lia)) as Hj.
    set (j := fst (Intn rng (len p + 1))) in *.
    set (rng1 := snd (Intn rng (len p + 1))).
    cbn [replicate].
    assert (Hseq : seqZ 0 (len p + 1) = seqZ 0 (len p) ++ [len p]).
    { unfold len. rewrite seqZ_app by lia. rewrite (seqZ_cons _ 1) by lia.
      now rewrite (seqZ_nil _ (Z.pred 1)) by lia. }
    assert (Hgoal : forall p', len p' = len p + 1 -> p' ≡ₚ len p :: p ->
              exists m' rng',
                perm_loop (p' ++ replicate k 0) rng1
                  (len p + Z.of_nat (S k)) (len p + 1) = Some (m', rng') /\
                m' ≡ₚ seqZ 0 (len p + Z.of_nat (S k))).
    { intros p' Hlen' Hp'.
      destruct (IH p' rng1) as (m' & rng' & Hrun & Hm').
      - unfold len in Hlen'. lia.
      - rewrite Hlen', Hseq. etrans; [exact Hp'|].
        etrans; [apply Permutation_cons_append|].
        apply Permutation_app_tail, Hperm.
      - rewrite Hlen' in Hrun, Hm'.
        replace (len p + 1 + Z.of_nat k) with (len p + Z.of_nat (S k)) in * by lia.
        eauto. }
    destruct (Z.eq_dec j (len p)) as [Hjp|Hjp].
    + rewrite Hjp, at_index_middle. cbn [mbind option_bind].
      rewrite set_index_middle. cbn [mbind option_bind].
      rewrite set_index_middle. cbn [mbind option_bind].
      replace (p ++ len p :: replicate k 0) with ((p ++ [len p]) ++ replicate k 0)
        by now rewrite <- app_assoc.
      apply Hgoal.
      * rewrite len_app. reflexivity.
      * symmetry. apply Permutation_cons_append.
    + destruct (at_index_in_range p j ltac:(lia)) as [pj Hpj].
      assert (Hpj' : at_index (p ++ 0 :: replicate k 0) j = Some pj).
      { apply at_index_Some in Hpj as [? Hpj]. apply at_index_Some.
        split; [assumption|]. now apply lookup_app_l_Some. }
      rewrite Hpj'. cbn [mbind option_bind].
      rewrite set_index_middle. cbn [mbind option_bind].
      apply at_index_Some in Hpj as [Hj0 Hpj].
      assert (Hset : set_index (p ++ pj :: replicate k 0) j (len p)
                     = Some ((<[Z.to_nat j := len p]> p ++ [pj]) ++ replicate k 0)).
      { unfold set_index.
        assert (Hat : at_index (p ++ pj :: replicate k 0) j = Some pj).
        { apply at_index_Some. split; [assumption|]. now apply lookup_app_l_Some. }
        rewrite Hat. f_equal.
        rewrite insert_app_l by (apply lookup_lt_Some in Hpj; lia).
        now rewrite <- app_assoc. }
      rewrite Hset. cbn [mbind option_bind].
      apply Hgoal.
      * rewrite len_app. unfold len. rewrite length_insert. reflexivity.
      * rewrite <- Permutation_cons_append.
        now apply insert_cons_Permutation.
Qed.

Lemma perm_loop_total (rng : R) (n : Z) :
  0 <= n ->
  exists order rng', perm rng n = Some (order, rng') /\ order ≡ₚ seqZ 0 n.
Proof.
  intros Hn. unfold perm. destruct (Z.ltb_spec n 0); [lia|].
  destruct (Z.eq_dec n 0) as [->|Hn0].
  - rewrite perm_loop_step. simpl. eauto.
  - destruct (perm_loop_Permutation (Z.to_nat n - 1) [0] rng)
      as (m' & rng' & Hrun & Hm'); [simpl; lia|reflexivity|].
    change (len [0]) with 1 in *.
    replace (1 + Z.of_nat (Z.to_nat n - 1)) with n in * by lia.
    replace (Z.to_nat n) with (S (Z.to_nat n - 1)) by lia.
    exists m', rng'. split; [exact Hrun|exact Hm'].
Qed.

(** X20. For a random-integer source whose draws [Intn(k)] lie in
    [0, k), [perm(rng, n)] with [n >= 0] returns a permutation of the
    indices [0, ..., n - 1]: every index once. *)
Theorem perm_is_permutation (rng : R) (n : Z) :
  0 <= n ->
  exists order rng', perm rng n = Some (order, rng') /\ order ≡ₚ seqZ 0 n.
Proof. apply perm_loop_total. Qed.

End Traversal.

Lemma perm_is_permutation_witness :
  exists order rng', perm (1 : Z) 5 = Some (order, rng') /\ order ≡ₚ seqZ 0 5.
Proof.
  apply (perm_is_permutation counter_rng_range 1 5). lia.
Defined.

Lemma ForEach_loop_collect (p : float64 * Z -> bool) (ms : list float64)
    (pre cs : list Z) (seen : list (float64 * Z)) :
  length ms = length cs ->
  ForEach_loop (collect_while p) ms (pre ++ cs) (len pre) seen
  = Some (rev (take_until p (zip ms cs)) ++ seen).
Proof.
  revert pre cs seen.
  induction ms as [|m ms IH]; intros pre [|c cs] seen Hlen;
    try discriminate; [reflexivity|].
  cbn [ForEach_loop zip_with take_until]. rewrite at_index_middle.
  unfold collect_while at 1. destruct (p (m, c)).
  - replace (pre ++ c :: cs) with ((pre ++ [c]) ++ cs) by now rewrite <- app_assoc.
    replace (len pre + 1) with (len (pre ++ [c])) by (rewrite len_app; reflexivity).
    rewrite IH by (simpl in Hlen; lia).
    cbn [rev]. now rewrite <- app_assoc.
  - reflexivity.
Qed.

Lemma take_until_all {A} (p : A -> bool) (l : list A) :
  (forall a, a ∈ l -> p a = true) -> take_until p l = l.
Proof.
  induction l as [|a l IH]; intros Hall; [reflexivity|].
  cbn [take_until]. rewrite (Hall a) by apply list_elem_of_here.
  f_equal. apply IH. intros b Hin. apply Hall. now apply list_elem_of_further.
Qed.

(** X21. [ForEach] shows the visitor the centroids in stored order, each
    mean with its own count, and stops behind the first one at which the
    visitor answers [false]: a visitor that records what it is shown has
    recorded the pairs up to and including that one, and all of them if
    it never stops. *)
Theorem ForEach_visits_in_order (s : summary) (p : float64 * Z -> bool)
    (seen : list (float64 * Z)) :
  length (means s) = length (counts s) ->
  ForEach s (collect_while p) seen
  = Some (rev (take_until p (zip (means s) (counts s))) ++ seen) /\
  ((forall pair, pair ∈ zip (means s) (counts s) -> p pair = true) ->
   ForEach s (collect_while p) seen
   = Some (rev (zip (means s) (counts s)) ++ seen)).
Proof.
  intros Hlen. unfold ForEach.
  assert (HL : ForEach_loop (collect_while p) (means s) (counts s) 0 seen
               = Some (rev (take_until p (zip (means s) (counts s))) ++ seen))
    by exact (ForEach_loop_collect p (means s) [] (counts s) seen Hlen).
  rewrite HL.
  split; [reflexivity|]. intros Hall. now rewrite take_until_all.
Qed.

Lemma ForEach_visits_in_order_witness :
  let s := mkSummary [of_Z 3; of_Z 3; of_Z 5] [2; 1; 1] in
  let p := fun pair : float64 * Z => 1 <? pair.2 in
  ForEach s (collect_while p) []
  = Some (rev (take_until p (zip (means s) (counts s))) ++ []) /\
  ((forall pair, pair ∈ zip (means s) (counts s) -> p pair = true) ->
   ForEach s (collect_while p) []
   = Some (rev (zip (means s) (counts s)) ++ [])).
Proof.
  apply (ForEach_visits_in_order (mkSummary [of_Z 3; of_Z 3; of_Z 5] [2; 1; 1])
           (fun pair : float64 * Z => 1 <? pair.2) []).
  reflexivity.
Defined.

Lemma omap_lookup_seqZ {A} (l pre : list A) :
  omap (fun i => (pre ++ l) !! Z.to_nat i) (seqZ (len pre) (len l)) = l.
Proof.
  revert pre. induction l as [|a l IH]; intros pre.
  - now rewrite seqZ_nil.
  - rewrite seqZ_cons by (rewrite len_cons; pose proof (len_nonneg l); lia).
    cbn [omap list_omap].
    replace (Z.to_nat (len pre)) with (length pre) by (unfold len; lia).
    rewrite (list_lookup_middle pre l a (length pre) eq_refl).
    f_equal.
    replace (Z.pred (len (a :: l))) with (len l) by (rewrite len_cons; lia).
    replace (Z.succ (len pre)) with (len (pre ++ [a]))
      by (rewrite len_app; unfold len; simpl; lia).
    replace (pre ++ a :: l) with ((pre ++ [a]) ++ l) by now rewrite <- app_assoc.
    apply IH.
Qed.

Lemma omap_lookup_seqZ_0 {A} (l : list A) :
  omap (fun i => l !! Z.to_nat i) (seqZ 0 (len l)) = l.
Proof. exact (omap_lookup_seqZ l []). Qed.

Lemma Perm_loop_collect (s : summary) (order : list Z) (seen : list (float64 * Z)) :
  length (means s) = length (counts s) ->
  Forall (fun i => 0 <= i < Len s) order ->
  Perm_loop collect s order seen
  = Some (rev (omap (fun i => zip (means s) (counts s) !! Z.to_nat i) order)
          ++ seen).
Proof.
  intros Hlen Hall. revert seen.
  induction Hall as [|i order Hi _ IH]; intros seen; [reflexivity|].
  unfold Len, len in Hi. cbn [Perm_loop omap list_omap].
  destruct (at_index_in_range (means s) i ltac:(unfold len; lia)) as [m Hm].
  destruct (at_index_in_range (counts s) i ltac:(unfold len; lia)) as [c Hc].
  rewrite Hm, Hc. unfold collect at 1. rewrite IH.
  apply at_index_Some in Hm as [_ Hm]. apply at_index_Some in Hc as [_ Hc].
  rewrite lookup_zip_with, Hm, Hc. cbn [mbind option_bind rev].
  now rewrite <- app_assoc.
Qed.

(** X22. With a random-integer source whose draws [Intn(k)] lie in
    [0, k), [Perm] shows a visitor that never stops every centroid
    exactly once, each mean with its own count: what the recording
    visitor has seen is a permutation of the stored pairs. *)
Theorem Perm_visits_every_centroid_once {R} `{RNG R} (s : summary) (rng : R) :
  (forall (r : R) (k : Z), 0 < k -> 0 <= fst (Intn r k) < k) ->
  length (means s) = length (counts s) ->
  exists seen rng',
    Perm s rng collect [] = Some (seen, rng') /\
    seen ≡ₚ zip (means s) (counts s).
Proof.
  intros Hrng Hlen. unfold Perm.
  destruct (perm_loop_total Hrng rng (Len s) ltac:(apply len_nonneg))
    as (order & rng' & Hrun & Hperm).
  rewrite Hrun. cbn [mbind option_bind].
  rewrite Perm_loop_collect; [|assumption|].
  - cbn [mbind option_bind]. eexists _, rng'. split; [reflexivity|].
    rewrite app_nil_r, <- Permutation_rev, Hperm.
    replace (Len s) with (len (zip (means s) (counts s)))
      by (unfold Len, len; rewrite length_zip_with; lia).
    now rewrite omap_lookup_seqZ_0.
  - apply Forall_forall. intros i Hi. rewrite Hperm in Hi.
    apply elem_of_seqZ in Hi. lia.
Qed.

Lemma Perm_visits_every_centroid_once_witness :
  exists seen rng',
    Perm (mkSummary [of_Z 3; of_Z 3; of_Z 5] [2; 1; 1]) (1 : Z) collect []
    = Some (seen, rng') /\
    seen ≡ₚ zip (means (mkSummary [of_Z 3; of_Z 3; of_Z 5] [2; 1; 1]))
                (counts (mkSummary [of_Z 3; of_Z 3; of_Z 5] [2; 1; 1])).
Proof.
  apply (Perm_visits_every_centroid_once
           (mkSummary [of_Z 3; of_Z 3; of_Z 5] [2; 1; 1]) 1).
  - exact counter_rng_range.
  - reflexivity.
Defined.

(** ** Unchecked indices *)

(** X23. [Mean] and [Count] do not check their index: on a summary whose
    slices have one length they return for exactly the indices of
    [0, Len()) and panic for every other one, negative ones included. *)
Theorem Mean_Count_defined (s : summary) (i : Z) :
  length (means s) = length (counts s) ->
  (Mean s i = None <-> ~ 0 <= i < Len s) /\
  (Count s i = None <-> ~ 0 <= i < Len s).
Proof.
  intros Hlen. unfold Mean, Count, Len, len, at_index. rewrite Hlen.
  destruct (Z.ltb_spec i 0).
  - split; split; intros; [lia|reflexivity|lia|reflexivity].
  - rewrite !lookup_ge_None. rewrite Hlen. split; lia.
Qed.

Lemma Mean_Count_defined_witness :
  (Mean (mkSummary [of_Z 3; of_Z 5] [2; 1]) 2 = None
   <-> ~ 0 <= 2 < Len (mkSummary [of_Z 3; of_Z 5] [2; 1])) /\
  (Count (mkSummary [of_Z 3; of_Z 5] [2; 1]) 2 = None
   <-> ~ 0 <= 2 < Len (mkSummary [of_Z 3; of_Z 5] [2; 1])).
Proof.
  apply (Mean_Count_defined (mkSummary [of_Z 3; of_Z 5] [2; 1]) 2). reflexivity.
Defined.

(** X24. [shuffle] trusts the random-integer source: on a summary of
    three centroids or more, a first draw outside [0, Len()) makes the
    first [Swap] index out of range, and [shuffle] panics. *)
Theorem shuffle_bad_draw_panics {R} `{RNG R} (s : summary) (rng : R) :
  3 <= Len s ->
  ~ 0 <= fst (Intn rng (Len s)) < Len s ->
  shuffle s rng = None.
Proof.
  intros Hn Hbad. unfold shuffle, shuffle_slices, Len in *.
  rewrite shuffle_loop_step.
  destruct (Z_lt_dec 1 (len (means s) - 1)); [|lia].
  replace (len (means s) - 1 + 1) with (len (means s)) by lia.
  unfold Swap.
  replace (in_range (means s) (fst (Intn rng (len (means s))))) with false.
  - rewrite andb_false_r. reflexivity.
  - symmetry. unfold in_range. apply andb_false_iff.
    destruct (Z_le_dec 0 (fst (Intn rng (len (means s))))); [right|left]; lia.
Qed.

Lemma shuffle_bad_draw_panics_witness :
  shuffle (mkSummary [of_Z 1; of_Z 2; of_Z 3] [1; 1; 1]) tt = None.
Proof.
  apply (shuffle_bad_draw_panics (mkSummary [of_Z 1; of_Z 2; of_Z 3] [1; 1; 1]) tt).
  - vm_compute. discriminate.
  - vm_compute. intros [_ Hlt]. discriminate.
Defined.

(** ** Floor after Add *)

Lemma first_index_shift (p : float64 -> bool) (l : list float64) (i : Z) :
  first_index p l (i + 1) = first_index p l i + 1.
Proof.
  revert i. induction l as [|a l IH]; intros i; cbn [first_index]; [reflexivity|].
  destruct (p a); [reflexivity|apply IH].
Qed.

Lemma first_index_insert_before (key x : float64) (l : list float64) (i : Z) :
  IsNaN key = false -> IsNaN x = false -> no_nan l = true ->
  first_index (fun m => geb m x)
    (insert_before (fun m => gtb m key) key l) i
  = first_index (fun m => geb m x) l i + (if ltb key x then 1 else 0).
Proof.
  intros Hk Hx. revert i. induction l as [|a l IH]; intros i Hn.
  - cbn [insert_before first_index]. destruct (geb key x) eqn:Hge.
    + rewrite (geb_true_not_ltb key x Hge). lia.
    + rewrite (geb_false_ltb key x Hk Hx Hge). reflexivity.
  - apply no_nan_cons in Hn as [Ha Hn]. cbn [insert_before].
    destruct (gtb a key) eqn:Hak.
    + cbn [first_index]. destruct (geb key x) eqn:Hge.
      * rewrite (geb_true_not_ltb key x Hge).
        assert (Hax : geb a x = true).
        { unfold geb in *. apply (leb_trans x key a Hge).
          now apply gtb_true_leb. }
        rewrite Hax. lia.
      * rewrite (geb_false_ltb key x Hk Hx Hge).
        destruct (geb a x); [lia|apply first_index_shift].
    + cbn [first_index]. destruct (geb a x) eqn:Hax.
      * assert (Hge : geb key x = true).
        { unfold geb in *. apply (leb_trans x a key Hax).
          now apply gtb_false_leb. }
        rewrite (geb_true_not_ltb key x Hge). lia.
      * apply IH, Hn.
Qed.

(** X25. [Add] and [Floor] compose: on a sorted summary without NaN, a
    valid [Add(key, _)] raises [Floor(x)] by one when [key < x] and leaves
    it as it was otherwise; in particular it does not change
    [Floor(key)]. *)
Theorem Floor_after_Add (s : summary) (key x : float64) (value : Z) :
  summary_ok s -> IsNaN key = false -> value <> 0 -> IsNaN x = false ->
  Floor (snd (Add s key value)) x
  = Floor s x + (if ltb key x then 1 else 0).
Proof.
  intros [Hlen Hn Hs] Hk Hv Hx.
  rewrite (Add_valid s key value Hk Hv Hs Hlen). cbn [snd]. unfold Floor.
  rewrite (findIndex_scan s x Hs).
  rewrite findIndex_scan by (cbn [means]; now apply insert_before_sorted).
  cbn [means]. rewrite first_index_insert_before by assumption. lia.
Qed.

Lemma Floor_after_Add_witness :
  Floor (snd (Add (mkSummary [of_Z 3; of_Z 5] [2; 1]) (of_Z 4) 7)) (of_Z 5)
  = Floor (mkSummary [of_Z 3; of_Z 5] [2; 1]) (of_Z 5)
    + (if ltb (of_Z 4) (of_Z 5) then 1 else 0).
Proof.
  apply (Floor_after_Add (mkSummary [of_Z 3; of_Z 5] [2; 1]) (of_Z 4) (of_Z 5) 7);
    [split; reflexivity|reflexivity|discriminate|reflexivity].
Defined.

(** X26. Where float64 adds the counts exactly, [FloorSum] does what its
    comment says.  On a summary whose counts add up to at most [2^53], and
    for [sum >= 0], [FloorSum(sum)] returns a pair [(index, cumSum)] with
    [cumSum] equal to [HeadSum(index)]; on the empty summary [index] is
    -1, otherwise [index] is the last position whose preceding cumulative
    weight is [<= sum]: the weight before [index] is [<= sum] and the
    weight before every later position is not. *)
Theorem FloorSum_exact (s : summary) (sum : float64) :
  length (means s) = length (counts s) ->
  Forall (fun c => 0 <= c) (counts s) ->
  sumZ (counts s) <= 2 ^ 53 ->
  leb zero sum = true ->
  exists index cumSum,
    FloorSum s sum = Some (index, cumSum) /\
    HeadSum s index = Some cumSum /\
    (Len s = 0 -> index = -1) /\
    (0 < Len s ->
     0 <= index < Len s /\
     leb (of_Z (weight_before s index)) sum = true /\
     forall j, index < j < Len s ->
               leb (of_Z (weight_before s j)) sum = false).
Proof.
  intros Hlen Hcs Htot Hsum. unfold Len, len, weight_before. rewrite Hlen.
  destruct (counts s) as [|c0 cs0] eqn:Ecs.
  { exists (-1), zero. unfold FloorSum, HeadSum. rewrite Ecs.
    repeat split; intros; simpl in *; lia. }
  rewrite <- Ecs in *.
  destruct (FloorSum_loop_exact sum (counts s) 0 (-1) 0 Hcs ltac:(lia)
              ltac:(lia) Hsum ltac:(rewrite Ecs; discriminate))
    as (k & Hk & Hrun & Hpass & Hstop).
  rewrite !Z.add_0_l in *.
  destruct (lookup_lt_is_Some_2 (counts s) k Hk) as [ck Hck].
  assert (Hck0 : 0 <= ck).
  { rewrite Forall_forall in Hcs. apply Hcs.
    eapply list_elem_of_lookup_2. eassumption. }
  pose proof (sumZ_take_le (counts s) (S k) Hcs) as HSk.
  pose proof (sumZ_nonneg (take k (counts s)) (Forall_take _ _ _ Hcs)) as Hk0.
  exists (Z.of_nat k), (of_Z (sumZ (take k (counts s)))).
  rewrite Nat2Z.id. split; [|split; [|split]].
  - unfold FloorSum. change zero with (of_Z 0). rewrite Hrun.
    destruct (Z.eqb_spec (Z.of_nat k) (-1)); [lia|].
    rewrite at_index_nat, Hck. cbn [mbind option_bind].
    rewrite (sumZ_take_S _ _ _ Hck), sub_exact; [reflexivity|lia..|].
    rewrite <- (sumZ_take_S _ _ _ Hck). lia.
  - unfold HeadSum. rewrite sumUntilIndex_prefix by (unfold len; lia).
    cbn [fmap option_fmap option_map]. do 2 f_equal.
    rewrite plain_prefix_sum_wrap, Nat2Z.id. apply wrap64_small.
    pose proof (sumZ_take_le (counts s) k Hcs).
    change uint64_mod with 18446744073709551616.
    change (2 ^ 53) with 9007199254740992 in *. lia.
  - lia.
  - intros _. split; [lia|]. split; [assumption|].
    intros j Hj.
    destruct (leb (of_Z (sumZ (take (Z.to_nat j) (counts s)))) sum) eqn:Hj';
      [exfalso|reflexivity].
    assert (HS : (S k < length (counts s))%nat) by lia.
    specialize (Hstop HS).
    pose proof (sumZ_take_mono (counts s) (S k) (Z.to_nat j) Hcs ltac:(lia)).
    pose proof (sumZ_take_le (counts s) (Z.to_nat j) Hcs).
    pose proof (sumZ_nonneg (take (S k) (counts s)) (Forall_take _ _ _ Hcs)).
    assert (Hmono : leb (of_Z (sumZ (take (S k) (counts s))))
                        (of_Z (sumZ (take (Z.to_nat j) (counts s)))) = true)
      by (apply leb_of_Z_mono; lia).
    rewrite (leb_trans _ _ _ Hmono Hj') in Hstop. discriminate.
Qed.

Lemma FloorSum_exact_witness :
  exists index cumSum,
    FloorSum (mkSummary [of_Z 3; of_Z 3; of_Z 5] [2; 1; 1]) (of_Z 2)
    = Some (index, cumSum) /\
    HeadSum (mkSummary [of_Z 3; of_Z 3; of_Z 5] [2; 1; 1]) index = Some cumSum /\
    (Len (mkSummary [of_Z 3; of_Z 3; of_Z 5] [2; 1; 1]) = 0 -> index = -1) /\
    (0 < Len (mkSummary [of_Z 3; of_Z 3; of_Z 5] [2; 1; 1]) ->
     0 <= index < Len (mkSummary [of_Z 3; of_Z 3; of_Z 5] [2; 1; 1]) /\
     leb (of_Z (weight_before (mkSummary [of_Z 3; of_Z 3; of_Z 5] [2; 1; 1]) index))
         (of_Z 2) = true /\
     forall j, index < j < Len (mkSummary [of_Z 3; of_Z 3; of_Z 5] [2; 1; 1]) ->
               leb (of_Z (weight_before
                            (mkSummary [of_Z 3; of_Z 3; of_Z 5] [2; 1; 1]) j))
                   (of_Z 2) = false).
Proof.
  apply (FloorSum_exact (mkSummary [of_Z 3; of_Z 3; of_Z 5] [2; 1; 1]) (of_Z 2)).
  - reflexivity.
  - repeat constructor; simpl; lia.
  - vm_compute. discriminate.
  - reflexivity.
Defined.
